(** * PyConcatenator: validation and composition of image fragments

    A shallow embedding of [Script.py].  The script talks to three
    libraries: the file system (through [glob] and [PIL.Image.open] /
    [Image.save]), the imaging library (sizes, [paste]) and the console
    ([print]).  They are modelled by an explicit [world] that every
    operation threads through, together with Python's exceptions.

    Conventions of the model: paths are POSIX strings and name files
    literally; an image handle is the object that [Image.open] returns,
    open until [close] or the end of its [with] block; the exceptions are
    those that the library calls raise and [except Exception] catches. *)

From Stdlib Require Import ZArith Ascii DecimalString DecimalN.
From stdpp Require Import gmap strings list sorting.

Local Open Scope Z_scope.

(** ** Images and files *)

(** [img.size]: a pair (width, height) of Python integers. *)
Definition size : Type := Z * Z.

Definition size_eqb (a b : size) : bool :=
  (a.1 =? b.1) && (a.2 =? b.2).

(** One pixel of an RGBA image. *)
Definition rgba : Type := Z * Z * Z * Z.

Definition transparent : rgba := (0, 0, 0, 0).

(** The pixel data of a decoded image, as seen in mode RGBA (what [paste]
    on an RGBA canvas copies); column first, row second. *)
Definition raster : Type := Z → Z → rgba.

(** What a path of the file system holds: a file that the process may not
    read, a file that is not an image, a directory, a symbolic link whose
    target is missing, or an image.  [Image.open] only reads the header of
    a file: a file whose header gives a size but whose pixel data cannot be
    decoded (a truncated file) has [data = None].  A directory is an entry
    where its name matters, that is where a file is looked for or listed;
    the folders above a file are implicit in its path. *)
Inductive file : Type :=
  | Unreadable
  | NotAnImage
  | Directory
  | DanglingLink
  | ImageFile (sz : size) (data : option raster).

(** ** Exceptions *)

Inductive exn : Type :=
  | FileNotFoundError (path : string)
  | PermissionError (path : string)
  | UnidentifiedImageError (path : string)
  | IsADirectoryError (path : string)
  | FileExistsError (path : string)
  | OSError (msg : string)
  | ValueError (msg : string)
  | IndexError (msg : string).

(** [str(e)], as interpolated into the messages the script prints. *)
Definition str_exn (e : exn) : string :=
  match e with
  | FileNotFoundError p =>
      "[Errno 2] No such file or directory: '" +:+ p +:+ "'"
  | PermissionError p => "[Errno 13] Permission denied: '" +:+ p +:+ "'"
  | UnidentifiedImageError p => "cannot identify image file '" +:+ p +:+ "'"
  | IsADirectoryError p => "[Errno 21] Is a directory: '" +:+ p +:+ "'"
  | FileExistsError p => "[Errno 17] File exists: '" +:+ p +:+ "'"
  | OSError msg | ValueError msg | IndexError msg => msg
  end.

(** ** The world *)

(** [fs]: the files, by path.
    [save_faults]: the paths at which writing an image fails, each with
    what the failed write leaves at the path ([None]: nothing).
    [open_handles]: the image handles opened and not yet closed.
    [next_handle]: the identity of the next handle.
    [stdout]: the lines printed so far, oldest first. *)
Record world : Type := World {
  fs : gmap string file;
  save_faults : gmap string (option file);
  open_handles : list nat;
  next_handle : nat;
  stdout : list string
}.

Definition set_fs (f : gmap string file) (w : world) : world :=
  World f (save_faults w) (open_handles w) (next_handle w) (stdout w).

Definition set_open_handles (hs : list nat) (w : world) : world :=
  World (fs w) (save_faults w) hs (next_handle w) (stdout w).

(** ** Computations: state and exceptions *)

Inductive outcome (A : Type) : Type :=
  | Return (a : A)
  | Raise (e : exn).
Arguments Return {A} a.
Arguments Raise {A} e.

Definition M (A : Type) : Type := world → outcome A * world.

Definition ret {A} (a : A) : M A := λ w, (Return a, w).

Definition raise {A} (e : exn) : M A := λ w, (Raise e, w).

Definition bind {A B} (m : M A) (k : A → M B) : M B :=
  λ w, match m w with
       | (Return a, w') => k a w'
       | (Raise e, w') => (Raise e, w')
       end.

Notation "'let!' x := m 'in' k" := (bind m (λ x, k))
  (at level 10, x name, m at level 200, k at level 200,
   format "'[v' 'let!'  x  :=  m  'in' '/' k ']'").

(** [try: body except Exception as e: handler e]. *)
Definition try_except {A} (body : M A) (handler : exn → M A) : M A :=
  λ w, match body w with
       | (Return a, w') => (Return a, w')
       | (Raise e, w') => handler e w'
       end.

(** [print(s)]. *)
Definition print (s : string) : M unit :=
  λ w, (Return (),
        World (fs w) (save_faults w) (open_handles w) (next_handle w)
              (stdout w ++ [s])).

(** ** The imaging library *)

(** An image object returned by [Image.open]. *)
Record image : Type := Image {
  im_id : nat;
  im_size : size;
  im_data : option raster
}.

(** [Image.open(path)]: fails on a missing file, on a link to a missing
    file, on a file that may not be read, on a directory and on a file that
    is not an image (the library closes the file itself then); otherwise
    the file stays open behind a fresh handle. *)
Definition Image_open (path : string) : M image :=
  λ w, match fs w !! path with
       | None => (Raise (FileNotFoundError path), w)
       | Some Unreadable => (Raise (PermissionError path), w)
       | Some NotAnImage => (Raise (UnidentifiedImageError path), w)
       | Some Directory => (Raise (IsADirectoryError path), w)
       | Some DanglingLink => (Raise (FileNotFoundError path), w)
       | Some (ImageFile sz data) =>
           let h := next_handle w in
           (Return (Image h sz data),
            World (fs w) (save_faults w) (h :: open_handles w) (S h) (stdout w))
       end.

Definition release (h : nat) (hs : list nat) : list nat :=
  filter (λ h', h' ≠ h) hs.

(** [img.close()]. *)
Definition Image_close (img : image) : M unit :=
  λ w, (Return (), set_open_handles (release (im_id img) (open_handles w)) w).

(** [with Image.open(path) as img: body img]: the handle is closed when the
    block is left, by falling through, by [return] or by an exception. *)
Definition with_open {A} (path : string) (body : image → M A) : M A :=
  let! img := Image_open path in
  λ w, match body img w with
       | (r, w') => (r, snd (Image_close img w'))
       end.

(** ** [check_image_sizes] *)

(** The loop over [file_paths[1:]]; [false] stands for the early
    [return False, None] from inside the loop. *)
Fixpoint check_rest (base_size : size) (file_paths : list string) : M bool :=
  match file_paths with
  | [] => ret true
  | file_path :: rest =>
      let! same := with_open file_path
                     (λ img, ret (size_eqb (im_size img) base_size)) in
      if same then check_rest base_size rest else ret false
  end.

Definition check_error_prefix : string :=
  "画像サイズチェック中にエラーが発生しました: ".

Definition check_image_sizes (file_paths : list string)
  : M (bool * option size) :=
  match file_paths with
  | [] => ret (false, None)
  | first :: others =>
      try_except
        (let! base_size := with_open first (λ img, ret (im_size img)) in
         let! all_same := check_rest base_size others in
         if all_same then ret (true, Some base_size) else ret (false, None))
        (λ e, let! _ := print (check_error_prefix +:+ str_exn e) in
              ret (false, None))
  end.

(** ** The canvas *)

(** One [paste] call as the canvas remembers it: the pixels and the size of
    the pasted image and the offset of its upper left corner. *)
Record pasted : Type := Pasted {
  p_pixels : raster;
  p_size : size;
  p_offset : Z * Z
}.

(** The image under construction ([result_img]): its size and the pastes
    made into it, oldest first. *)
Record canvas : Type := Canvas {
  c_size : size;
  c_pastes : list pasted
}.

Definition covers (p : pasted) (x y : Z) : bool :=
  ((p_offset p).1 <=? x) && (x <? (p_offset p).1 + (p_size p).1) &&
  ((p_offset p).2 <=? y) && (y <? (p_offset p).2 + (p_size p).2).

(** Pasting without a mask overwrites the covered region, alpha included. *)
Definition apply_paste (p : pasted) (under : raster) : raster :=
  λ x y, if covers p x y
         then p_pixels p (x - (p_offset p).1) (y - (p_offset p).2)
         else under x y.

Definition apply_pastes (ps : list pasted) (under : raster) : raster :=
  foldl (λ acc p, apply_paste p acc) under ps.

(** The pixels of a canvas: a new image is transparent black, a paste is
    clipped to the canvas. *)
Definition render (c : canvas) : raster :=
  λ x y, if (0 <=? x) && (x <? (c_size c).1) && (0 <=? y) && (y <? (c_size c).2)
         then apply_pastes (c_pastes c) (λ _ _, transparent) x y
         else transparent.

(** [Image.new('RGBA', size)]. *)
Definition Image_new (sz : size) : M canvas :=
  if (sz.1 <? 0) || (sz.2 <? 0)
  then raise (ValueError "Width and height must be >= 0")
  else ret (Canvas sz []).

(** [result_img.paste(img, box)]: decodes the pixel data of [img], which
    fails on a truncated file.  The image stays open here until [close];
    the library may close the file of an image as soon as its pixels are
    read, so the properties of the handles concern the images that no
    paste has read, and the return of [True], when all are closed. *)
Definition paste (result_img : canvas) (img : image) (box : Z * Z) : M canvas :=
  match im_data img with
  | None => raise (OSError "image file is truncated")
  | Some pixels =>
      ret (Canvas (c_size result_img)
                  (c_pastes result_img ++ [Pasted pixels (im_size img) box]))
  end.

(** [result_img.save(path, 'PNG')] opens [path] itself for writing, which
    empties a file that is already there, and encodes the image into it.
    When the write fails (a full disk, a directory that is gone, a
    directory at the path itself), the call raises and the path is left
    with what the fault says: the old file, a truncated file, or nothing. *)
Definition Image_save (result_img : canvas) (path : string) : M unit :=
  λ w, match save_faults w !! path with
       | None =>
           (Return (),
            set_fs (<[path := ImageFile (c_size result_img)
                                        (Some (render result_img))]> (fs w)) w)
       | Some left_over =>
           (Raise (OSError ("cannot write '" +:+ path +:+ "'")),
            set_fs (match left_over with
                    | Some f => <[path := f]> (fs w)
                    | None => delete path (fs w)
                    end) w)
       end.

(** ** [concatenate_images] *)

(** [for file_path in file_paths: images.append(Image.open(file_path))] *)
Fixpoint open_images (images : list image) (file_paths : list string)
  : M (list image) :=
  match file_paths with
  | [] => ret images
  | file_path :: rest =>
      let! img := Image_open file_path in
      open_images (images ++ [img]) rest
  end.

(** The horizontal paste loop. *)
Fixpoint paste_row (result_img : canvas) (width x_offset : Z)
    (images : list image) : M canvas :=
  match images with
  | [] => ret result_img
  | img :: rest =>
      let! result_img := paste result_img img (x_offset, 0) in
      paste_row result_img width (x_offset + width) rest
  end.

(** The vertical paste loop. *)
Fixpoint paste_column (result_img : canvas) (height y_offset : Z)
    (images : list image) : M canvas :=
  match images with
  | [] => ret result_img
  | img :: rest =>
      let! result_img := paste result_img img (0, y_offset) in
      paste_column result_img height (y_offset + height) rest
  end.

(** [for img in images: img.close()] *)
Fixpoint close_images (images : list image) : M unit :=
  match images with
  | [] => ret ()
  | img :: rest => let! _ := Image_close img in close_images rest
  end.

(** Everything between the opening loop and [save]: the canvas with all
    images pasted. *)
Definition compose (images : list image) (direction : string) : M canvas :=
  match images with
  | [] => raise (IndexError "list index out of range")
  | first :: _ =>
      let '(width, height) := im_size first in
      if String.eqb direction "horizontal" then
        let total_width := width * Z.of_nat (length images) in
        let total_height := height in
        let! result_img := Image_new (total_width, total_height) in
        paste_row result_img width 0 images
      else
        let total_width := width in
        let total_height := height * Z.of_nat (length images) in
        let! result_img := Image_new (total_width, total_height) in
        paste_column result_img height 0 images
  end.

Definition concat_error_prefix : string :=
  "画像連結中にエラーが発生しました: ".

Definition concatenate_images (file_paths : list string)
    (direction output_path : string) : M bool :=
  match file_paths with
  | [] => ret false
  | _ :: _ =>
      try_except
        (let! images := open_images [] file_paths in
         let! result_img := compose images direction in
         let! _ := Image_save result_img output_path in
         let! _ := close_images images in
         ret true)
        (λ e, let! _ := print (concat_error_prefix +:+ str_exn e) in
              ret false)
  end.

(** ** Discovery: [find_segment_files] *)

(** [os.path.join(a, b)] on POSIX paths. *)
Definition ends_with_slash (a : string) : bool :=
  match String.rev a with
  | String c _ => Ascii.eqb c "/"%char
  | EmptyString => false
  end.

Definition starts_with_slash (b : string) : bool :=
  match b with
  | String c _ => Ascii.eqb c "/"%char
  | EmptyString => false
  end.

Definition os_path_join (a b : string) : string :=
  if starts_with_slash b then b
  else if String.eqb a "" || ends_with_slash a then a +:+ b
  else a +:+ "/" +:+ b.

(** [fnmatch] for patterns made of literal characters, [?] and [*]. *)
Fixpoint fnmatch (pat : string) : string → bool :=
  match pat with
  | EmptyString => λ name, String.eqb name ""
  | String "*"%char pat' =>
      fix star (name : string) : bool :=
        fnmatch pat' name ||
        match name with
        | EmptyString => false
        | String _ name' => star name'
        end
  | String c pat' =>
      λ name, match name with
              | EmptyString => false
              | String d name' =>
                  (Ascii.eqb c "?"%char || Ascii.eqb c d) && fnmatch pat' name'
              end
  end.

Fixpoint has_slash (p : string) : bool :=
  match p with
  | EmptyString => false
  | String c rest => Ascii.eqb c "/"%char || has_slash rest
  end.

(** A path cut after its last slash: the directory part, with its final
    slash, and the file name. *)
Fixpoint split_path (p : string) : string * string :=
  match p with
  | EmptyString => ("", "")
  | String c rest =>
      if has_slash rest then
        let '(d, b) := split_path rest in (String c d, b)
      else if Ascii.eqb c "/"%char then ("/", rest)
      else ("", p)
  end.

Fixpoint all_slashes (s : string) : bool :=
  match s with
  | EmptyString => true
  | String c rest => Ascii.eqb c "/" && all_slashes rest
  end.

(** [s.rstrip('/')] *)
Fixpoint rstrip_slashes (s : string) : string :=
  match s with
  | EmptyString => EmptyString
  | String c rest =>
      let rest' := rstrip_slashes rest in
      if Ascii.eqb c "/" && String.eqb rest' "" then EmptyString
      else String c rest'
  end.

(** [os.path.dirname(p)], the head of [os.path.split(p)] on a POSIX path:
    the part up to the last slash, without its final slashes unless it
    consists of slashes only. *)
Definition os_path_dirname (p : string) : string :=
  let head := (split_path p).1 in
  if negb (String.eqb head "") && negb (all_slashes head)
  then rstrip_slashes head
  else head.

(** [os.path.basename(p)], the tail of [os.path.split(p)]. *)
Definition os_path_basename (p : string) : string := (split_path p).2.

(** The directory part that [os.path.join] puts before a file name. *)
Definition folder_prefix (folder : string) : string :=
  if String.eqb folder "" || ends_with_slash folder then folder
  else folder +:+ "/".

(** [glob.has_magic]: the pattern has a wildcard character. *)
Fixpoint has_magic (s : string) : bool :=
  match s with
  | EmptyString => false
  | String c rest =>
      Ascii.eqb c "*" || Ascii.eqb c "?" || Ascii.eqb c "[" || has_magic rest
  end.

(** [glob.glob(pattern)] for a pattern whose directory part has no
    wildcard.  The pattern is split by [os.path.split] into [dirname] and
    [basename]; the entries of the directory [dirname] whose name matches
    [basename] are returned, each as [os.path.join(dirname, name)], in the
    order in which the directory lists them.  An entry is whatever the
    directory holds under the name: a file, a directory, a link.  A
    directory part with a wildcard is itself expanded by [glob]; the
    statements about the listing ask for a folder without one. *)
Definition glob_glob (pattern : string) (w : world) : list string :=
  let dirname := os_path_dirname pattern in
  let basename := os_path_basename pattern in
  filter (λ p, (split_path p).1 = folder_prefix dirname ∧
               fnmatch basename (split_path p).2 = true)
         (map fst (map_to_list (fs w))).

(** [sorted] on a list of [str]: ascending in the code point order, which
    on UTF-8 strings is the order of the bytes. *)
Definition sorted (l : list string) : list string := merge_sort String.le l.

Definition find_segment_files (folder_path : string) (w : world)
  : list string :=
  let pattern := os_path_join folder_path "segment_*.png" in
  let files := glob_glob pattern w in
  sorted files.

(** ** The output file name (step 6 of [main]) *)

(** [datetime.datetime.now()] *)
Record datetime : Type := Datetime {
  year : N; month : N; day : N;
  hour : N; minute : N; second : N;
  microsecond : N
}.

(** [str(n)] for a natural number. *)
Definition str (n : N) : string := NilEmpty.string_of_uint (N.to_uint n).

(** [%m], [%d], [%H], [%M], [%S]: two digits. *)
Definition pad2 (n : N) : string :=
  if (n <? 10)%N then "0" +:+ str n else str n.

(** [%Y]: the year, in four digits from the year 1000 on.  A year below
    1000 is padded with zeros here; the C library of some platforms does
    not pad it, and the statement about the length of the name asks for a
    year from 1000 on. *)
Definition pad4 (n : N) : string :=
  if (n <? 10)%N then "000" +:+ str n
  else if (n <? 100)%N then "00" +:+ str n
  else if (n <? 1000)%N then "0" +:+ str n
  else str n.

(** [now.strftime("%Y%m%d_%H%M%S")] *)
Definition strftime (now : datetime) : string :=
  pad4 (year now) +:+ pad2 (month now) +:+ pad2 (day now) +:+ "_" +:+
  pad2 (hour now) +:+ pad2 (minute now) +:+ pad2 (second now).

(** [f"{timestamp}_{random_suffix}.png"] *)
Definition output_filename (now : datetime) (random_suffix : N) : string :=
  strftime now +:+ "_" +:+ str random_suffix +:+ ".png".

(** [Path('concatenated') / output_filename], as the string handed to
    [concatenate_images]. *)
Definition output_path (now : datetime) (random_suffix : N) : string :=
  "concatenated/" +:+ output_filename now random_suffix.

(** What [random.randint(100, 999)] can return. *)
Definition randint_100_999 (r : N) : Prop := (100 ≤ r ≤ 999)%N.

(** Two instants of the same second. *)
Definition same_second (a b : datetime) : Prop :=
  year a = year b ∧ month a = month b ∧ day a = day b ∧
  hour a = hour b ∧ minute a = minute b ∧ second a = second b.

(** * Vocabulary of the statements *)

(** ** Files, worlds and canvases *)

(** A file that [Image.open] accepts. *)
Definition opens_as (w : world) (path : string) (sz : size)
    (data : option raster) : Prop :=
  fs w !! path = Some (ImageFile sz data).

(** A file that [Image.open] rejects, with the exception it raises. *)
Definition open_error (w : world) (path : string) : option exn :=
  match fs w !! path with
  | None => Some (FileNotFoundError path)
  | Some Unreadable => Some (PermissionError path)
  | Some NotAnImage => Some (UnidentifiedImageError path)
  | Some Directory => Some (IsADirectoryError path)
  | Some DanglingLink => Some (FileNotFoundError path)
  | Some (ImageFile _ _) => None
  end.

(** The world after a handle was opened and closed again. *)
Definition after_with (w : world) : world :=
  World (fs w) (save_faults w)
        (release (next_handle w) (next_handle w :: open_handles w))
        (S (next_handle w)) (stdout w).

(** A call changes neither the files nor the console. *)
Definition quiet (w w' : world) : Prop :=
  fs w' = fs w ∧ save_faults w' = save_faults w ∧ stdout w' = stdout w.

(** Handles are numbered in the order in which they are opened: every open
    handle is older than the next one. *)
Definition handles_wf (w : world) : Prop :=
  Forall (λ h, (h < next_handle w)%nat) (open_handles w).

(** The image objects obtained by opening, from handle [h] on, files with
    the given sizes and pixel data. *)
Fixpoint images_from (h : nat) (files : list (size * option raster))
  : list image :=
  match files with
  | [] => []
  | f :: rest => Image h f.1 f.2 :: images_from (S h) rest
  end.

(** The pastes that the horizontal loop adds for decodable images. *)
Fixpoint row_pastes (width x_offset : Z) (frags : list (size * raster))
  : list pasted :=
  match frags with
  | [] => []
  | f :: rest =>
      Pasted f.2 f.1 (x_offset, 0) :: row_pastes width (x_offset + width) rest
  end.

Fixpoint column_pastes (height y_offset : Z) (frags : list (size * raster))
  : list pasted :=
  match frags with
  | [] => []
  | f :: rest =>
      Pasted f.2 f.1 (0, y_offset)
      :: column_pastes height (y_offset + height) rest
  end.

Definition decoded (img : image) (f : size * raster) : Prop :=
  im_size img = f.1 ∧ im_data img = Some f.2.

(** A fragment that opens and decodes, with its size and pixels. *)
Definition readable (w : world) (path : string) (f : size * raster) : Prop :=
  opens_as w path f.1 (Some f.2).

(** The canvas that [compose] builds from decodable images. *)
Definition composed (direction : string) (frags : list (size * raster))
  : canvas :=
  match frags with
  | [] => Canvas (0, 0) []
  | first :: _ =>
      let '(width, height) := first.1 in
      if String.eqb direction "horizontal"
      then Canvas (width * Z.of_nat (length frags), height)
                  (row_pastes width 0 frags)
      else Canvas (width, height * Z.of_nat (length frags))
                  (column_pastes height 0 frags)
  end.

(** The canvas holds one paste per fragment, fragment [i] at [i] times the
    step along the row (or the column). *)
Definition pasted_in_row (c : canvas) (step : Z) (frags : list (size * raster))
  : Prop :=
  length (c_pastes c) = length frags ∧
  ∀ (i : nat) f, frags !! i = Some f →
    c_pastes c !! i = Some (Pasted f.2 f.1 (Z.of_nat i * step, 0)).

Definition pasted_in_column (c : canvas) (step : Z)
    (frags : list (size * raster)) : Prop :=
  length (c_pastes c) = length frags ∧
  ∀ (i : nat) f, frags !! i = Some f →
    c_pastes c !! i = Some (Pasted f.2 f.1 (0, Z.of_nat i * step)).

(** The validator reports a read error: it returns failure and prints one
    line that names an exception. *)
Definition surfaces_read_error (w : world)
    (r : outcome (bool * option size) * world) : Prop :=
  r.1 = Return (false, None) ∧
  ∃ e, stdout r.2 = stdout w ++ [check_error_prefix +:+ str_exn e].

(** ** Sample worlds *)

(** A fragment filled with one colour; the pixel remembers its position. *)
Definition tint (k : Z) : raster := λ x y, (k, x, y, 255).

Definition frame_01 : string := "frames/segment_01.png".
Definition frame_02 : string := "frames/segment_02.png".
Definition frame_03 : string := "frames/segment_03.png".
Definition out_png : string := "concatenated/20240307_090500_500.png".

Definition tile_2 : string := "tiles/segment_2.png".
Definition tile_10 : string := "tiles/segment_10.png".

(** A folder with two fragments of 100x50 pixels and a third one of 80x50,
    and a folder with two tiles of 64x64 pixels and a text file. *)
Definition sample_fs : gmap string file :=
  <[frame_01 := ImageFile (100, 50) (Some (tint 1))]>
  (<[frame_02 := ImageFile (100, 50) (Some (tint 2))]>
  (<[frame_03 := ImageFile (80, 50) (Some (tint 3))]>
  (<[tile_2 := ImageFile (64, 64) (Some (tint 4))]>
  (<[tile_10 := ImageFile (64, 64) (Some (tint 5))]>
  (<["tiles/notes.txt" := NotAnImage]> ∅))))).

Definition sample_world : world := World sample_fs ∅ [] 0 [].

(** A path that no file has. *)
Definition missing_frame : string := "frames/segment_04.png".

(** The output of an earlier run. *)
Definition earlier_output : file := ImageFile (100, 100) (Some (tint 9)).

(** A world in which the output path already holds an image and the next
    write to it breaks off, leaving a truncated file. *)
Definition full_disk_world : world :=
  World (<[out_png := earlier_output]> sample_fs)
        {[out_png := Some NotAnImage]} [] 0 [].

(** Two instants of one second. *)
Definition morning : datetime := Datetime 2024 3 7 9 5 0 120000.
Definition same_morning : datetime := Datetime 2024 3 7 9 5 0 870000.

(** * The rest of the script *)

(** ** Discovery of the folders: [find_image_folders], and the reveal:
       [open_file_explorer] *)

(** A name that starts with a dot. *)
Definition is_hidden (name : string) : bool :=
  match name with
  | String c _ => Ascii.eqb c "."
  | EmptyString => false
  end.

(** [glob.glob(pattern)] with its rule for hidden files: a name that starts
    with a dot is matched only by a pattern that starts with a dot. *)
Definition glob_glob_visible (pattern : string) (w : world) : list string :=
  filter (λ p, is_hidden (split_path pattern).2 = true ∨
               is_hidden (split_path p).2 = false)
         (glob_glob pattern w).

Fixpoint starts_with (prefix s : string) : bool :=
  match prefix, s with
  | EmptyString, _ => true
  | String a prefix', String b s' => Ascii.eqb a b && starts_with prefix' s'
  | String _ _, EmptyString => false
  end.

(** [needle in hay] on strings. *)
Fixpoint str_contains (needle hay : string) : bool :=
  starts_with needle hay ||
  match hay with
  | EmptyString => false
  | String _ hay' => str_contains needle hay'
  end.

Definition image_extensions : list string :=
  ["*.png"; "*.jpg"; "*.jpeg"; "*.bmp"; "*.gif"; "*.tiff"].

(** The loop over the extensions, left by [break] at the first extension
    that has a file. *)
Fixpoint scan_extensions (root : string) (extensions : list string)
    (w : world) (folders_with_images : gset string) : gset string :=
  match extensions with
  | [] => folders_with_images
  | ext :: rest =>
      if bool_decide (glob_glob_visible (os_path_join root ext) w ≠ [])
      then {[root]} ∪ folders_with_images
      else scan_extensions root rest w folders_with_images
  end.

(** The loop over [os.walk('.')], whose triples are (root, dirs, files). *)
Fixpoint walk_folders (os_walk : list (string * list string * list string))
    (w : world) (folders_with_images : gset string) : gset string :=
  match os_walk with
  | [] => folders_with_images
  | (root, _, _) :: rest =>
      if str_contains "concatenated" root
      then walk_folders rest w folders_with_images
      else walk_folders rest w
             (scan_extensions root image_extensions w folders_with_images)
  end.

(** [find_image_folders()], given what [os.walk('.')] yields. *)
Definition find_image_folders
    (os_walk : list (string * list string * list string)) (w : world)
  : list string :=
  sorted (elements (walk_folders os_walk w ∅)).

Definition explorer_error_prefix : string :=
  "ファイルエクスプローラーを開く際にエラーが発生しました: ".

(** [open_file_explorer(file_path)], given what [platform.system()] returns
    and what [subprocess.run] does with a command line. *)
Definition open_file_explorer (platform_system : string)
    (subprocess_run : list string → M unit) (file_path : string) : M unit :=
  try_except
    (let system := platform_system in
     if String.eqb system "Windows" then
       subprocess_run ["explorer"; "/select,"; file_path]
     else if String.eqb system "Darwin" then
       subprocess_run ["open"; "-R"; file_path]
     else
       subprocess_run ["xdg-open"; os_path_dirname file_path])
    (λ e, let! _ := print (explorer_error_prefix +:+ str_exn e) in ret ()).

(** ** The interactive run: [main] *)

(** The methods of [str] that [main] applies to the lines it reads. *)
Record str_methods : Type := StrMethods {
  strip : string → string;
  lower : string → string;
  isdigit : string → bool;
  int_of_str : string → option Z
}.

(** What the run finds around it: the result of [os.walk('.')], the test
    [os.path.exists], the error with which the system refuses to create a
    folder in the working directory, if it does (no permission, a
    read-only file system), the clock and the random draw of step 6, the
    name of the platform and the effect of [subprocess.run]. *)
Record environment : Type := Environment {
  env_walk : list (string * list string * list string);
  env_exists : string → bool;
  env_mkdir_fault : option exn;
  env_now : datetime;
  env_randint : N;
  env_system : string;
  env_run : list string → M unit;
  env_str : str_methods
}.

(** Exceptions that [main] lets escape: those of the library calls, the end
    of the input in [input()], and the subscript of [None]. *)
Inductive failure : Type :=
  | LibraryError (e : exn)
  | EOFError
  | TypeError.

Inductive finish (A : Type) : Type :=
  | Done (a : A)
  | Crash (e : failure).
Arguments Done {A} a.
Arguments Crash {A} e.

(** Computations that also read lines from the console: the lines not yet
    read are passed along. *)
Definition IO (A : Type) : Type :=
  list string → world → finish A * list string * world.

Definition io_ret {A} (a : A) : IO A := λ stdin w, (Done a, stdin, w).

Definition io_bind {A B} (m : IO A) (k : A → IO B) : IO B :=
  λ stdin w, match m stdin w with
             | (Done a, stdin', w') => k a stdin' w'
             | (Crash e, stdin', w') => (Crash e, stdin', w')
             end.

Notation "'let*' x := m 'in' k" := (io_bind m (λ x, k))
  (at level 10, x name, m at level 200, k at level 200,
   format "'[v' 'let*'  x  :=  m  'in' '/' k ']'").

Definition lift {A} (m : M A) : IO A :=
  λ stdin w, match m w with
             | (Return a, w') => (Done a, stdin, w')
             | (Raise e, w') => (Crash (LibraryError e), stdin, w')
             end.

Definition say (s : string) : IO unit := lift (print s).

(** The world after [print(s)], and after [input(prompt)] has shown its
    prompt, which is one more entry of [stdout]. *)
Definition said (s : string) (w : world) : world := (print s w).2.

Definition nl : string := String "010" "".

(** [str(z)] for an integer. *)
Definition str_int (z : Z) : string :=
  if z <? 0 then "-" +:+ str (Z.to_N (- z)) else str (Z.to_N z).

(** [for i, folder in enumerate(image_folders, i): print(f"{i}. {folder}")] *)
Fixpoint say_folders (i : N) (image_folders : list string) : IO unit :=
  match image_folders with
  | [] => io_ret ()
  | folder :: rest =>
      let* _ := say (str i +:+ ". " +:+ folder) in
      say_folders (i + 1) rest
  end.

(** [for file_path in segment_files: print(f"  - {basename}")] *)
Fixpoint say_names (segment_files : list string) : IO unit :=
  match segment_files with
  | [] => io_ret ()
  | file_path :: rest =>
      let* _ := say ("  - " +:+ os_path_basename file_path) in
      say_names rest
  end.

Definition folder_prompt : string :=
  nl +:+ "フォルダ名を入力してください（パス形式で入力可能）: ".

(** Step 2, the loop that asks for the folder; one line is read per turn. *)
Fixpoint select_folder (env : environment) (image_folders : list string)
    (stdin : list string) : world → finish string * list string * world :=
  match stdin with
  | [] => λ w, (Crash EOFError, [], said folder_prompt w)
  | line :: rest => λ w,
      let w := said folder_prompt w in
      let folder_input := strip (env_str env) line in
      if isdigit (env_str env) folder_input then
        match int_of_str (env_str env) folder_input with
        | None =>
            select_folder env image_folders rest
              (said "有効なフォルダ名または番号を入力してください。" w)
        | Some n =>
            let folder_index := n - 1 in
            if (0 <=? folder_index) &&
               (folder_index <? Z.of_nat (length image_folders))
            then
              match image_folders !! Z.to_nat folder_index with
              | Some selected_folder => (Done selected_folder, rest, w)
              | None =>
                  (Crash (LibraryError (IndexError "list index out of range")),
                   rest, w)
              end
            else
              select_folder env image_folders rest (said "無効な番号です。" w)
        end
      else if env_exists env folder_input then (Done folder_input, rest, w)
      else
        select_folder env image_folders rest
          (said "指定されたフォルダが見つかりません。" w)
  end.

Definition direction_prompt : string :=
  nl +:+ "連結方向を選択してください (1: 縦連結, 2: 横連結): ".

(** Step 5, the loop that asks for the direction; it returns [direction]
    and [direction_text]. *)
Fixpoint choose_direction (env : environment) (stdin : list string)
  : world → finish (string * string) * list string * world :=
  match stdin with
  | [] => λ w, (Crash EOFError, [], said direction_prompt w)
  | line :: rest => λ w,
      let w := said direction_prompt w in
      let direction_input := strip (env_str env) line in
      if String.eqb direction_input "1" then (Done ("vertical", "縦"), rest, w)
      else if String.eqb direction_input "2"
      then (Done ("horizontal", "横"), rest, w)
      else choose_direction env rest (said "1または2を入力してください。" w)
  end.

Definition reveal_prompt : string :=
  nl +:+ "ファイルをエクスプローラーで開きますか？ (y/n): ".

(** Step 8, the loop that offers to reveal the output. *)
Fixpoint ask_reveal (env : environment) (output_path : string)
    (stdin : list string) : world → finish unit * list string * world :=
  match stdin with
  | [] => λ w, (Crash EOFError, [], said reveal_prompt w)
  | line :: rest => λ w,
      let w := said reveal_prompt w in
      let open_explorer := lower (env_str env) (strip (env_str env) line) in
      if String.eqb open_explorer "y" || String.eqb open_explorer "yes" then
        lift (open_file_explorer (env_system env) (env_run env) output_path)
             rest w
      else if String.eqb open_explorer "n" || String.eqb open_explorer "no"
      then (Done (), rest, w)
      else ask_reveal env output_path rest
             (said "yまたはnを入力してください。" w)
  end.

(** [Path(path).mkdir(exist_ok=True)]: a directory that is there is left
    alone; a file or a link at the path makes the call fail with
    [FileExistsError]; otherwise the directory is created, unless the
    system refuses, and then the call fails with the error of the system. *)
Definition mkdir_exist_ok (fault : option exn) (path : string) : M unit :=
  λ w, match fs w !! path with
       | Some Directory => (Return (), w)
       | Some _ => (Raise (FileExistsError path), w)
       | None =>
           match fault with
           | Some e => (Raise e, w)
           | None => (Return (), set_fs (<[path := Directory]> (fs w)) w)
           end
       end.

(** Steps 3 to 8 of [main], for the folder selected in step 2. *)
Definition process_folder (env : environment) (selected_folder : string)
  : IO unit :=
  let* _ := say (nl +:+ "'" +:+ selected_folder
                 +:+ "'フォルダ内のsegment_*.pngファイルを探索しています...") in
  let* segment_files :=
    (λ stdin w, (Done (find_segment_files selected_folder w), stdin, w)) in
  match segment_files with
  | [] => say "segment_*.pngファイルが見つかりませんでした。"
  | _ :: _ =>
      let* _ := say (str (N.of_nat (length segment_files))
                     +:+ "個のsegment_*.pngファイルが見つかりました:") in
      let* _ := say_names segment_files in
      let* _ := say (nl +:+ "画像のキャンバスサイズをチェックしています...") in
      let* checked := lift (check_image_sizes segment_files) in
      let '(sizes_match, base_size) := checked in
      if negb sizes_match then
        say "画像のキャンバスサイズがファイルごとに異なるため、正常に画像を連結できません。"
      else
        match base_size with
        | None => λ stdin w, (Crash TypeError, stdin, w)
        | Some (base_width, base_height) =>
            let* _ := say ("すべての画像のサイズが一致しています: "
                           +:+ str_int base_width +:+ "x"
                           +:+ str_int base_height) in
            let* chosen := choose_direction env in
            let '(direction, direction_text) := chosen in
            let* _ :=
              lift (mkdir_exist_ok (env_mkdir_fault env) "concatenated") in
            let output_path := output_path (env_now env) (env_randint env) in
            let* _ := say (nl +:+ direction_text
                           +:+ "方向に画像を連結しています...") in
            let* success :=
              lift (concatenate_images segment_files direction output_path) in
            if negb success then say "画像の連結に失敗しました。"
            else
              let* _ := say "連結が完了しました。" in
              let* _ := say ("出力ファイル: " +:+ output_path) in
              let* _ := ask_reveal env output_path in
              say (nl +:+ "処理が完了しました。")
        end
  end.

Definition main (env : environment) : IO unit :=
  let* _ := say "=== PyConcatenator - 画像連結CLIツール ===" in
  let* _ := say ("ゲームアセット制作向け画像連結ユーティリティ" +:+ nl) in
  let* _ := say "画像ファイルが含まれているフォルダを探索しています..." in
  let* image_folders :=
    (λ stdin w, (Done (find_image_folders (env_walk env) w), stdin, w)) in
  match image_folders with
  | [] => say "画像ファイルが含まれているフォルダが見つかりませんでした。"
  | _ :: _ =>
      let* _ := say "以下のフォルダが見つかりました:" in
      let* _ := say_folders 1 image_folders in
      let* _ := say "(concatenatedフォルダは表示されません)" in
      let* selected_folder := select_folder env image_folders in
      process_folder env selected_folder
  end.

(** * More vocabulary *)

(** The folder as [glob] spells it in what it returns: the directory part
    of the pattern, which is the folder without its final slashes. *)
Definition glob_dirname (folder : string) : string :=
  os_path_dirname (os_path_join folder "*").

(** What [datetime.datetime.now()] can return. *)
Definition is_datetime (t : datetime) : Prop :=
  (1 ≤ year t ≤ 9999 ∧ 1 ≤ month t ≤ 12 ∧ 1 ≤ day t ≤ 31 ∧
   hour t ≤ 23 ∧ minute t ≤ 59 ∧ second t ≤ 59 ∧ microsecond t ≤ 999999)%N.

(** An ASCII digit. *)
Definition is_digit (c : ascii) : bool :=
  (Ascii.leb "0" c && Ascii.leb c "9")%char.

Fixpoint digits_only (s : string) : bool :=
  match s with
  | EmptyString => true
  | String c rest => is_digit c && digits_only rest
  end.

(** Reading a decimal numeral, leading zeros allowed. *)
Definition parse_decimal (s : string) : option N :=
  option_map N.of_uint (NilEmpty.uint_of_string s).

(** The folder has a file that one of the patterns matches. *)
Definition has_image (w : world) (root : string) : Prop :=
  ∃ ext, ext ∈ image_extensions ∧
         glob_glob_visible (os_path_join root ext) w ≠ [].

Definition image_suffixes : list string :=
  [".png"; ".jpg"; ".jpeg"; ".bmp"; ".gif"; ".tiff"].

(** No star and no question mark: the pattern matches only itself. *)
Fixpoint is_plain (pat : string) : bool :=
  match pat with
  | EmptyString => true
  | String c rest =>
      negb (Ascii.eqb c "*") && negb (Ascii.eqb c "?") && is_plain rest
  end.

(** The file at path [q] is the same in both worlds. *)
Definition keeps_file (q : string) (w w' : world) : Prop :=
  fs w' !! q = fs w !! q.

(** Whatever it reads, the computation keeps the file at [q]. *)
Definition io_keeps {A} (q : string) (m : IO A) : Prop :=
  ∀ stdin w, keeps_file q w (m stdin w).2.

(** [subprocess.run] changes no file that the tool knows. *)
Definition run_keeps_files (env : environment) : Prop :=
  ∀ argv w, fs (env_run env argv w).2 = fs w.

(** The line, once stripped, names the folder [selected]: as a number
    counted from 1 in the list shown, or as a path that exists. *)
Definition names_folder (env : environment) (image_folders : list string)
    (line selected : string) : Prop :=
  let folder_input := strip (env_str env) line in
  (isdigit (env_str env) folder_input = true ∧
   ∃ n, int_of_str (env_str env) folder_input = Some n ∧
        1 ≤ n ≤ Z.of_nat (length image_folders) ∧
        image_folders !! Z.to_nat (n - 1) = Some selected)
  ∨ (isdigit (env_str env) folder_input = false ∧
     env_exists env folder_input = true ∧ selected = folder_input).

(** The errors of [mkdir] on the output folder: the path is a file, or the
    system refuses to create the folder. *)
Definition mkdir_error (env : environment) (e : exn) : Prop :=
  e = FileExistsError "concatenated" ∨ env_mkdir_fault env = Some e.

(** A run ends normally, or at the end of the input with every line read,
    or in an error of [mkdir]. *)
Definition ends_well {A} (env : environment) (Q : A → Prop)
    (r : finish A * list string * world) : Prop :=
  match r with
  | (Done a, _, _) => Q a
  | (Crash EOFError, rest, _) => rest = []
  | (Crash (LibraryError e), _, _) => mkdir_error env e
  | (Crash TypeError, _, _) => False
  end.

Definition io_ends_well {A} (env : environment) (Q : A → Prop) (m : IO A)
  : Prop :=
  ∀ stdin w, ends_well env Q (m stdin w).

(** ** Paths that name the same file *)

(** [s.split('/')] *)
Fixpoint split_slashes (s : string) : list string :=
  match s with
  | EmptyString => [""]
  | String c rest =>
      if Ascii.eqb c "/" then "" :: split_slashes rest
      else match split_slashes rest with
           | first :: others => String c first :: others
           | [] => [String c ""]
           end
  end.

(** ['/'.join(comps)] *)
Fixpoint join_slashes (comps : list string) : string :=
  match comps with
  | [] => ""
  | comp :: rest =>
      match rest with
      | [] => comp
      | _ :: _ => comp +:+ "/" +:+ join_slashes rest
      end
  end.

(** The slashes that [normpath] keeps at the front: none, one, or two when
    the path starts with exactly two. *)
Definition initial_slashes (path : string) : nat :=
  if starts_with "/" path then
    if starts_with "//" path && negb (starts_with "///" path) then 2%nat
    else 1%nat
  else 0%nat.

(** One turn of the loop of [normpath] over the components: empty
    components and [.] are dropped, [..] removes the component before it,
    unless there is none to remove. *)
Definition normpath_step (initial : nat) (new_comps : list string)
    (comp : string) : list string :=
  if String.eqb comp "" || String.eqb comp "." then new_comps
  else if negb (String.eqb comp "..")
          || ((initial =? 0)%nat && bool_decide (new_comps = []))
          || bool_decide (last new_comps = Some "..")
  then new_comps ++ [comp]
  else removelast new_comps.

(** ['/' * n] *)
Fixpoint slashes (n : nat) : string :=
  match n with
  | O => ""
  | S n' => String "/" (slashes n')
  end.

(** [os.path.normpath(path)] on a POSIX path. *)
Definition os_path_normpath (path : string) : string :=
  if String.eqb path "" then "."
  else
    let initial := initial_slashes path in
    let comps := foldl (normpath_step initial) [] (split_slashes path) in
    let path := slashes initial +:+ join_slashes comps in
    if String.eqb path "" then "." else path.

(** [os.path.abspath(path)] in the working directory [cwd]: the spelling
    under which two paths are compared.  Two paths with the same absolute
    spelling name the same file; links, which give a file further names,
    are not modelled. *)
Definition os_path_abspath (cwd path : string) : string :=
  os_path_normpath
    (if starts_with_slash path then path else os_path_join cwd path).

(** The world after a series of [print] calls. *)
Definition said_all (lines : list string) (w : world) : world :=
  foldl (λ w s, said s w) w lines.

Definition no_fragments_message : string :=
  "segment_*.pngファイルが見つかりませんでした。".

Definition size_mismatch_message : string :=
  "画像のキャンバスサイズがファイルごとに異なるため、正常に画像を連結できません。".

(** ** The methods of [str] on ASCII lines *)

(** The ASCII characters that [str.strip] removes. *)
Definition is_space (c : ascii) : bool :=
  let n := N_of_ascii c in
  ((9 <=? n) && (n <=? 13) || (28 <=? n) && (n <=? 32))%N.

Fixpoint lstrip (s : string) : string :=
  match s with
  | EmptyString => EmptyString
  | String c rest => if is_space c then lstrip rest else s
  end.

Definition ascii_strip (s : string) : string :=
  String.rev (lstrip (String.rev (lstrip s))).

Definition lower_char (c : ascii) : ascii :=
  let n := N_of_ascii c in
  if ((65 <=? n) && (n <=? 90))%N then ascii_of_N (n + 32) else c.

Fixpoint ascii_lower (s : string) : string :=
  match s with
  | EmptyString => EmptyString
  | String c rest => String (lower_char c) (ascii_lower rest)
  end.

Definition ascii_isdigit (s : string) : bool :=
  negb (String.eqb s "") && digits_only s.

(** [int(s)] on the strings of digits, the only ones [main] converts. *)
Definition int_of_digits (s : string) : option Z :=
  if ascii_isdigit s then option_map Z.of_N (parse_decimal s) else None.

Definition ascii_methods : str_methods :=
  StrMethods ascii_strip ascii_lower ascii_isdigit int_of_digits.

(** ** More sample worlds *)

Definition torn_frame : string := "frames/segment_05.png".

Definition torn_world : world :=
  World (<[torn_frame := ImageFile (100, 50) None]> sample_fs) ∅ [] 0 [].

Definition next_morning : datetime := Datetime 2024 3 8 9 5 0 120000.

(** A project folder as [os.walk('.')] sees it. *)
Definition project_fs : gmap string file :=
  <["./cover.jpg" := ImageFile (10, 10) (Some (tint 1))]>
  (<["./frames/segment_01.png" := ImageFile (100, 50) (Some (tint 1))]>
  (<["./frames/segment_02.png" := ImageFile (100, 50) (Some (tint 2))]>
  (<["./notes/readme.txt" := NotAnImage]>
  (<["./thumbs/.cache.png" := ImageFile (8, 8) (Some (tint 3))]>
  (<["./concatenated/20240307_090500_500.png" := earlier_output]>
  (<["concatenated" := Directory]>
  (<["./unconcatenated/raw.gif" := ImageFile (4, 4) (Some (tint 4))]>
     ∅))))))).

Definition project_world : world := World project_fs ∅ [] 0 [].

Definition project_walk : list (string * list string * list string) :=
  [(".", ["frames"; "notes"; "thumbs"; "concatenated"; "unconcatenated"],
    ["cover.jpg"]);
   ("./frames", [], ["segment_01.png"; "segment_02.png"]);
   ("./notes", [], ["readme.txt"]);
   ("./thumbs", [], [".cache.png"]);
   ("./concatenated", [], ["20240307_090500_500.png"]);
   ("./unconcatenated", [], ["raw.gif"])].

(** A folder in which the names of fragments are taken by a directory and
    by a link to a missing file. *)
Definition scans_fs : gmap string file :=
  <["scans/segment_01.png" := Directory]>
  (<["scans/segment_02.png" := DanglingLink]> ∅).

Definition scans_world : world := World scans_fs ∅ [] 0 [].

(** A folder that holds a directory named like an image, and nothing else. *)
Definition album_fs : gmap string file :=
  <["./album/pics.png" := Directory]> ∅.

Definition album_world : world := World album_fs ∅ [] 0 [].

Definition album_walk : list (string * list string * list string) :=
  [(".", ["album"], []);
   ("./album", ["pics.png"], []);
   ("./album/pics.png", [], [])].

(** A desktop on which [xdg-open] is not installed. *)
Definition no_xdg_open (argv : list string) : M unit :=
  match argv with
  | "xdg-open" :: _ => raise (FileNotFoundError "xdg-open")
  | _ => ret ()
  end.

(** A run in the project folder on a Linux desktop: every path that has a
    file or holds files exists. *)
Definition project_env : environment :=
  Environment project_walk
    (λ p, bool_decide (p ∈ ["."; "./frames"; "./notes"; "./thumbs";
                            "./concatenated"; "./unconcatenated";
                            "./cover.jpg"]))
    None morning 731 "Linux" (λ _, ret ()) ascii_methods.

(** * Properties *)

(** ** The primitives *)

Lemma size_eqb_eq (a b : size) : size_eqb a b = true ↔ a = b.
Proof.
  destruct a as [aw ah], b as [bw bh]. unfold size_eqb. simpl.
  rewrite andb_true_iff, !Z.eqb_eq. split.
  - intros [-> ->]. reflexivity.
  - intros [= -> ->]. split; reflexivity.
Qed.

Lemma size_eqb_refl (a : size) : size_eqb a a = true.
Proof. apply size_eqb_eq. reflexivity. Qed.

Lemma size_eqb_neq (a b : size) : a ≠ b → size_eqb a b = false.
Proof.
  intros Hne. destruct (size_eqb a b) eqn:E; [|reflexivity].
  apply size_eqb_eq in E. contradiction.
Qed.

Lemma with_open_ret {A} (f : image → A) w path sz data :
  opens_as w path sz data →
  with_open path (λ img, ret (f img)) w
  = (Return (f (Image (next_handle w) sz data)), after_with w).
Proof.
  unfold opens_as, with_open, bind, Image_open. intros ->. reflexivity.
Qed.

Lemma with_open_error {A} (body : image → M A) w path e :
  open_error w path = Some e →
  with_open path body w = (Raise e, w).
Proof.
  unfold open_error, with_open, bind, Image_open.
  destruct (fs w !! path) as [[| | | |sz data]|]; intros [= <-]; reflexivity.
Qed.

(** Running a [with] block whose file opens ([opened]) or does not
    ([refused]). *)
Ltac opened H := rewrite (with_open_ret _ _ _ _ _ H); simpl.
Ltac refused H := rewrite (with_open_error _ _ _ _ H).

Lemma open_cases w path :
  (∃ sz data, opens_as w path sz data) ∨ (∃ e, open_error w path = Some e).
Proof.
  unfold opens_as, open_error.
  destruct (fs w !! path) as [[| | | |sz data]|]; eauto.
Qed.

Lemma opens_as_after_with w path sz data :
  opens_as (after_with w) path sz data ↔ opens_as w path sz data.
Proof. reflexivity. Qed.

Lemma quiet_refl w : quiet w w.
Proof. repeat split. Qed.

Lemma quiet_after_with w : quiet w (after_with w).
Proof. repeat split. Qed.

Lemma quiet_trans w1 w2 w3 : quiet w1 w2 → quiet w2 w3 → quiet w1 w3.
Proof.
  intros (? & ? & ?) (? & ? & ?). repeat split; congruence.
Qed.

(** ** The validator *)

(** The loop either finishes, or stops at a mismatch, or raises; it never
    touches the files and prints nothing. *)
Lemma check_rest_quiet base_size file_paths w :
  quiet w (check_rest base_size file_paths w).2.
Proof.
  revert w. induction file_paths as [|p rest IH]; intros w; simpl.
  - apply quiet_refl.
  - unfold bind. destruct (open_cases w p) as [(sz & data & Hp)|(e & Hp)].
    + opened Hp.
      destruct (size_eqb sz base_size); simpl.
      * eapply quiet_trans; [apply quiet_after_with | apply IH].
      * apply quiet_after_with.
    + refused Hp. apply quiet_refl.
Qed.

Lemma check_rest_all_same base_size file_paths w :
  Forall (λ p, ∃ data, opens_as w p base_size data) file_paths →
  (check_rest base_size file_paths w).1 = Return true.
Proof.
  revert w. induction file_paths as [|p rest IH]; intros w Hall; simpl.
  - reflexivity.
  - apply Forall_cons in Hall as [[data Hp] Hrest].
    unfold bind. opened Hp.
    rewrite size_eqb_refl. apply IH.
    exact Hrest.
Qed.

Lemma check_rest_mismatch base_size file_paths w p sz data :
  p ∈ file_paths → opens_as w p sz data → sz ≠ base_size →
  (check_rest base_size file_paths w).1 ≠ Return true.
Proof.
  revert w. induction file_paths as [|q rest IH]; intros w Hin Hp Hne.
  - inversion Hin.
  - simpl. unfold bind.
    destruct (open_cases w q) as [(szq & dq & Hq)|(e & Hq)].
    + opened Hq.
      destruct (size_eqb szq base_size) eqn:E; simpl; [|discriminate].
      apply size_eqb_eq in E. subst szq.
      apply elem_of_cons in Hin as [->|Hin].
      * unfold opens_as in Hp, Hq. congruence.
      * apply IH; assumption.
    + refused Hq. simpl. discriminate.
Qed.

(** Whatever the files, the validator returns a value. *)
Lemma check_image_sizes_returns file_paths w :
  ∃ v, (check_image_sizes file_paths w).1 = Return v.
Proof.
  destruct file_paths as [|first others]; simpl; [eauto|].
  unfold try_except, bind.
  destruct (with_open first _ w) as [[base|e] w1]; [|simpl; eauto].
  destruct (check_rest base others w1) as [[[]|e] w2]; simpl; eauto.
Qed.

(** C1: on a non-empty list of fragments that all have the size (w,h), the
    validator returns success together with (w,h). *)
Theorem check_image_sizes_same_size (w : world) (file_paths : list string)
    (sz : size) :
  file_paths ≠ [] →
  Forall (λ p, ∃ data, opens_as w p sz data) file_paths →
  (check_image_sizes file_paths w).1 = Return (true, Some sz).
Proof.
  intros Hne Hall. destruct file_paths as [|first others]; [contradiction|].
  apply Forall_cons in Hall as [[data Hfirst] Hothers].
  simpl. unfold try_except, bind.
  opened Hfirst.
  assert ((check_rest sz others (after_with w)).1 = Return true) as Hrest.
  { apply check_rest_all_same.
    exact Hothers. }
  destruct (check_rest sz others (after_with w)) as [r w2].
  simpl in Hrest. subst r. reflexivity.
Qed.

Lemma check_rest_no_raise base_size file_paths w :
  Forall (λ q, ∃ sz data, opens_as w q sz data) file_paths →
  ∃ b, (check_rest base_size file_paths w).1 = Return b.
Proof.
  revert w. induction file_paths as [|q rest IH]; intros w Hall; simpl.
  - eauto.
  - apply Forall_cons in Hall as [(sz & data & Hq) Hrest].
    unfold bind. opened Hq.
    destruct (size_eqb sz base_size); [|simpl; eauto].
    apply IH. exact Hrest.
Qed.

(** C2: when the first fragment has a size and some fragment of the list has
    another one, the validator returns failure and no size; when moreover
    every fragment opens, it prints nothing. *)
Theorem check_image_sizes_mismatch (w : world) (first : string)
    (others : list string) (base_size : size) (data0 : option raster)
    (p : string) (sz : size) (data : option raster) :
  opens_as w first base_size data0 →
  p ∈ others → opens_as w p sz data → sz ≠ base_size →
  (check_image_sizes (first :: others) w).1 = Return (false, None) ∧
  (Forall (λ q, ∃ sz' data', opens_as w q sz' data') others →
   stdout (check_image_sizes (first :: others) w).2 = stdout w).
Proof.
  intros Hfirst Hin Hp Hne.
  simpl. unfold try_except, bind.
  opened Hfirst.
  pose proof (check_rest_mismatch base_size others (after_with w) p sz data
                Hin Hp Hne) as Hrest.
  pose proof (check_rest_quiet base_size others (after_with w))
    as (_ & _ & Hout).
  pose proof (check_rest_no_raise base_size others (after_with w)) as Hret.
  destruct (check_rest base_size others (after_with w)) as [[[]|e] w2];
    simpl in *; [congruence| |].
  - split; [reflexivity|]. intros _. exact Hout.
  - split; [reflexivity|]. intros Hall.
    destruct (Hret Hall) as [b Hb]. discriminate.
Qed.

Lemma check_image_sizes_same_size_witness :
  (check_image_sizes [frame_01; frame_02] sample_world).1
  = Return (true, Some (100, 50)).
Proof.
  apply (check_image_sizes_same_size sample_world [frame_01; frame_02]
           (100, 50)).
  - discriminate.
  - repeat constructor; eexists; reflexivity.
Defined.

Lemma check_image_sizes_mismatch_witness :
  (check_image_sizes [frame_01; frame_02; frame_03] sample_world).1
  = Return (false, None) ∧
  (Forall (λ q, ∃ sz' data', opens_as sample_world q sz' data')
          [frame_02; frame_03] →
   stdout (check_image_sizes [frame_01; frame_02; frame_03] sample_world).2
   = stdout sample_world).
Proof.
  apply (check_image_sizes_mismatch sample_world frame_01 [frame_02; frame_03]
           (100, 50) (Some (tint 1)) frame_03 (80, 50) (Some (tint 3))).
  - reflexivity.
  - apply list_elem_of_In. simpl. right. left. reflexivity.
  - reflexivity.
  - discriminate.
Defined.

(** C9: on the empty list the validator returns failure and no size, the
    compositor returns failure, and neither touches the world. *)
Theorem empty_list_fails (w : world) (direction output_path : string) :
  check_image_sizes [] w = (Return (false, None), w) ∧
  concatenate_images [] direction output_path w = (Return false, w).
Proof. split; reflexivity. Qed.

(** ** Handles *)

Lemma release_fresh (h : nat) (hs : list nat) :
  Forall (λ h', (h' < h)%nat) hs → release h hs = hs.
Proof.
  unfold release. induction 1 as [|h' hs Hlt _ IH]; [reflexivity|].
  rewrite filter_cons_True by lia. rewrite IH. reflexivity.
Qed.

Lemma release_head (h : nat) (hs : list nat) :
  release h (h :: hs) = release h hs.
Proof. unfold release. rewrite filter_cons_False; [reflexivity|]. intros H. apply H. reflexivity. Qed.

Lemma after_with_handles w :
  handles_wf w →
  open_handles (after_with w) = open_handles w ∧ handles_wf (after_with w).
Proof.
  intros Hwf. unfold after_with, handles_wf in *. simpl.
  rewrite release_head, (release_fresh _ _ Hwf). split; [reflexivity|].
  eapply Forall_impl; [exact Hwf|]. simpl. intros; lia.
Qed.

Lemma check_rest_handles base_size file_paths w :
  handles_wf w →
  open_handles (check_rest base_size file_paths w).2 = open_handles w ∧
  handles_wf (check_rest base_size file_paths w).2.
Proof.
  revert w. induction file_paths as [|p rest IH]; intros w Hwf; simpl.
  - split; [reflexivity|exact Hwf].
  - unfold bind. destruct (open_cases w p) as [(sz & data & Hp)|(e & Hp)].
    + opened Hp.
      destruct (after_with_handles w Hwf) as [Heq Hwf'].
      destruct (size_eqb sz base_size); simpl.
      * destruct (IH _ Hwf') as [Heq' Hwf'']. split; [congruence|exact Hwf''].
      * split; assumption.
    + refused Hp. split; [reflexivity|exact Hwf].
Qed.

(** The validator leaves no handle open, whatever path it takes. *)
Lemma check_image_sizes_releases file_paths w :
  handles_wf w →
  open_handles (check_image_sizes file_paths w).2 = open_handles w.
Proof.
  intros Hwf. destruct file_paths as [|first others]; [reflexivity|].
  simpl. unfold try_except, bind.
  destruct (open_cases w first) as [(sz & data & Hp)|(e & Hp)].
  - opened Hp.
    destruct (after_with_handles w Hwf) as [Heq Hwf'].
    destruct (check_rest_handles sz others _ Hwf') as [Heq' _].
    destruct (check_rest sz others (after_with w)) as [[[]|e] w2];
      simpl in *; congruence.
  - refused Hp. reflexivity.
Qed.

(** ** The compositor, step by step *)

Lemma images_from_length h files :
  length (images_from h files) = length files.
Proof. revert h. induction files; intros h; simpl; [|rewrite IHfiles]; reflexivity. Qed.

Lemma open_images_ok images file_paths files w :
  Forall2 (λ p f, opens_as w p f.1 f.2) file_paths files →
  open_images images file_paths w
  = (Return (images ++ images_from (next_handle w) files),
     World (fs w) (save_faults w)
           (rev (seq (next_handle w) (length files)) ++ open_handles w)
           (next_handle w + length files) (stdout w)).
Proof.
  revert files images w.
  induction file_paths as [|p rest IH]; intros files images w Hall.
  - apply Forall2_nil_inv_l in Hall as ->. simpl.
    rewrite app_nil_r, Nat.add_0_r. destruct w; reflexivity.
  - apply Forall2_cons_inv_l in Hall as (f & files' & Hp & Hrest & ->).
    simpl. unfold bind, Image_open. unfold opens_as in Hp. rewrite Hp.
    rewrite (IH files').
    + simpl. rewrite <- !app_assoc. simpl.
      rewrite Nat.add_succ_r. destruct f; reflexivity.
    + eapply Forall2_impl; [exact Hrest|]. intros q g Hq. exact Hq.
Qed.

(** Opening only adds handles: neither files nor console change, and when
    it raises, the handles opened so far stay open. *)
Lemma open_images_quiet images file_paths w :
  quiet w (open_images images file_paths w).2.
Proof.
  revert images w. induction file_paths as [|p rest IH]; intros images w.
  - apply quiet_refl.
  - simpl. unfold bind, Image_open.
    destruct (fs w !! p) as [[| | | |sz data]|]; simpl; try apply quiet_refl.
    eapply quiet_trans; [|apply IH]. repeat split.
Qed.

Lemma paste_world result_img img box w :
  (paste result_img img box w).2 = w.
Proof. unfold paste. destruct (im_data img); reflexivity. Qed.

Lemma paste_row_world result_img width x_offset images w :
  (paste_row result_img width x_offset images w).2 = w.
Proof.
  revert result_img x_offset.
  induction images as [|img rest IH]; intros c x; simpl; [reflexivity|].
  unfold bind, paste. destruct (im_data img); simpl; [apply IH|reflexivity].
Qed.

Lemma paste_column_world result_img height y_offset images w :
  (paste_column result_img height y_offset images w).2 = w.
Proof.
  revert result_img y_offset.
  induction images as [|img rest IH]; intros c y; simpl; [reflexivity|].
  unfold bind, paste. destruct (im_data img); simpl; [apply IH|reflexivity].
Qed.

Lemma compose_world images direction w :
  (compose images direction w).2 = w.
Proof.
  unfold compose. destruct images as [|first rest]; [reflexivity|].
  destruct (im_size first) as [width height].
  generalize (first :: rest). intros images.
  destruct (String.eqb direction "horizontal"); unfold bind, Image_new;
    match goal with |- context [if ?b then _ else _] => destruct b end;
    simpl; try reflexivity.
  - apply paste_row_world.
  - apply paste_column_world.
Qed.

Lemma paste_row_ok result_img width x_offset images frags w :
  Forall2 decoded images frags →
  paste_row result_img width x_offset images w
  = (Return (Canvas (c_size result_img)
                    (c_pastes result_img ++ row_pastes width x_offset frags)),
     w).
Proof.
  intros Hall. revert result_img x_offset.
  induction Hall as [|img f images frags [Hsz Hdata] _ IH]; intros c x; simpl.
  - rewrite app_nil_r. destruct c; reflexivity.
  - unfold bind, paste. rewrite Hdata. simpl. rewrite IH. simpl.
    rewrite <- app_assoc, Hsz. reflexivity.
Qed.

Lemma paste_column_ok result_img height y_offset images frags w :
  Forall2 decoded images frags →
  paste_column result_img height y_offset images w
  = (Return (Canvas (c_size result_img)
                    (c_pastes result_img
                     ++ column_pastes height y_offset frags)),
     w).
Proof.
  intros Hall. revert result_img y_offset.
  induction Hall as [|img f images frags [Hsz Hdata] _ IH]; intros c y; simpl.
  - rewrite app_nil_r. destruct c; reflexivity.
  - unfold bind, paste. rewrite Hdata. simpl. rewrite IH. simpl.
    rewrite <- app_assoc, Hsz. reflexivity.
Qed.

Lemma row_pastes_lookup width x_offset frags (i : nat) :
  row_pastes width x_offset frags !! i
  = (λ f, Pasted f.2 f.1 (x_offset + Z.of_nat i * width, 0)) <$> frags !! i.
Proof.
  revert x_offset i. induction frags as [|f rest IH]; intros x i.
  - reflexivity.
  - destruct i as [|i]; simpl.
    + do 3 f_equal. lia.
    + rewrite IH. destruct (rest !! i); simpl; [|reflexivity].
      do 3 f_equal. lia.
Qed.

Lemma column_pastes_lookup height y_offset frags (i : nat) :
  column_pastes height y_offset frags !! i
  = (λ f, Pasted f.2 f.1 (0, y_offset + Z.of_nat i * height)) <$> frags !! i.
Proof.
  revert y_offset i. induction frags as [|f rest IH]; intros y i.
  - reflexivity.
  - destruct i as [|i]; simpl.
    + do 3 f_equal. lia.
    + rewrite IH. destruct (rest !! i); simpl; [|reflexivity].
      do 3 f_equal. lia.
Qed.

Lemma row_pastes_length width x_offset frags :
  length (row_pastes width x_offset frags) = length frags.
Proof.
  revert x_offset. induction frags; intros x; simpl; [|rewrite IHfrags]; reflexivity.
Qed.

Lemma column_pastes_length height y_offset frags :
  length (column_pastes height y_offset frags) = length frags.
Proof.
  revert y_offset. induction frags; intros y; simpl; [|rewrite IHfrags]; reflexivity.
Qed.

Lemma close_images_eq images w :
  close_images images w
  = (Return (),
     set_open_handles
       (foldl (λ hs img, release (im_id img) hs) (open_handles w) images) w).
Proof.
  revert w. induction images as [|img rest IH]; intros w; simpl.
  - destruct w; reflexivity.
  - unfold bind, Image_close. rewrite IH. reflexivity.
Qed.

Lemma release_app h l1 l2 : release h (l1 ++ l2) = release h l1 ++ release h l2.
Proof. unfold release. apply filter_app. Qed.

Lemma release_other (h : nat) (hs : list nat) :
  Forall (λ h', (h < h')%nat) hs → release h hs = hs.
Proof.
  unfold release. induction 1 as [|h' hs Hlt _ IH]; [reflexivity|].
  rewrite filter_cons_True by lia. rewrite IH. reflexivity.
Qed.

(** Closing the images opened from handle [h] on undoes the opening. *)
Lemma close_all_opened h files hs :
  Forall (λ h', (h' < h)%nat) hs →
  foldl (λ hs img, release (im_id img) hs)
        (rev (seq h (length files)) ++ hs) (images_from h files) = hs.
Proof.
  revert h hs. induction files as [|f rest IH]; intros h hs Hold; simpl.
  - reflexivity.
  - rewrite <- app_assoc. simpl.
    rewrite release_app, release_head, (release_fresh _ _ Hold).
    rewrite release_other.
    + apply IH. eapply Forall_impl; [exact Hold|]. simpl. intros; lia.
    + apply Forall_forall. intros x Hx.
      apply list_elem_of_In, in_rev, in_seq in Hx. lia.
Qed.

Lemma images_from_decoded h (frags : list (size * raster)) :
  Forall2 decoded (images_from h (map (λ f, (f.1, Some f.2)) frags)) frags.
Proof.
  revert h. induction frags as [|f rest IH]; intros h; simpl; constructor.
  - split; reflexivity.
  - apply IH.
Qed.

Lemma compose_ok images direction (frags : list (size * raster)) w :
  Forall2 decoded images frags →
  match frags with
  | [] => False
  | first :: _ => 0 ≤ first.1.1 ∧ 0 ≤ first.1.2
  end →
  compose images direction w = (Return (composed direction frags), w).
Proof.
  intros Hall Hpos.
  destruct Hall as [|first f rest frags' [Hsz Hdata] Hrest]; [contradiction|].
  assert (Forall2 decoded (first :: rest) (f :: frags')) as Hall
    by (constructor; [split|]; assumption).
  assert (length (first :: rest) = length (f :: frags')) as Hlen
    by (eapply Forall2_length; exact Hall).
  unfold compose, composed. cbv beta iota.
  rewrite Hsz. destruct (f.1) as [width height]. simpl in Hpos.
  rewrite Hlen.
  set (images := first :: rest) in *. set (frags := f :: frags') in *.
  clearbody images frags.
  destruct (String.eqb direction "horizontal"); unfold bind, Image_new; simpl.
  - replace ((width * Z.of_nat (length frags) <? 0) || (height <? 0))
      with false by (symmetry; apply orb_false_intro; apply Z.ltb_ge; nia).
    simpl. rewrite (paste_row_ok _ _ _ _ frags) by exact Hall. reflexivity.
  - replace ((width <? 0) || (height * Z.of_nat (length frags) <? 0))
      with false by (symmetry; apply orb_false_intro; apply Z.ltb_ge; nia).
    simpl. rewrite (paste_column_ok _ _ _ _ frags) by exact Hall. reflexivity.
Qed.

(** The success path of [concatenate_images]: every fragment opens and
    decodes and the write does not fail. *)
Lemma concatenate_images_ok file_paths direction output_path frags w :
  Forall2 (readable w) file_paths frags →
  match frags with
  | [] => False
  | first :: _ => 0 ≤ first.1.1 ∧ 0 ≤ first.1.2
  end →
  save_faults w !! output_path = None →
  concatenate_images file_paths direction output_path w
  = (Return true,
     World (<[output_path :=
                ImageFile (c_size (composed direction frags))
                          (Some (render (composed direction frags)))]> (fs w))
           (save_faults w)
           (foldl (λ hs img, release (im_id img) hs)
                  (rev (seq (next_handle w) (length frags)) ++ open_handles w)
                  (images_from (next_handle w)
                               (map (λ f, (f.1, Some f.2)) frags)))
           (next_handle w + length frags) (stdout w)).
Proof.
  intros Hall Hpos Hsave.
  destruct file_paths as [|p rest].
  { apply Forall2_nil_inv_l in Hall as ->. contradiction. }
  unfold concatenate_images, try_except, bind.
  rewrite (open_images_ok [] _ (map (λ f, (f.1, Some f.2)) frags)).
  2:{ apply Forall2_fmap_r. eapply Forall2_impl; [exact Hall|].
      intros q f Hq. exact Hq. }
  rewrite length_map. simpl app.
  rewrite (compose_ok _ _ frags);
    [|apply images_from_decoded|exact Hpos].
  unfold Image_save. simpl fs. simpl save_faults. rewrite Hsave.
  rewrite close_images_eq. reflexivity.
Qed.

Lemma check_rest_true base_size file_paths w :
  (check_rest base_size file_paths w).1 = Return true →
  Forall (λ p, ∃ data, opens_as w p base_size data) file_paths.
Proof.
  revert w. induction file_paths as [|p rest IH]; intros w; simpl.
  - constructor.
  - unfold bind. destruct (open_cases w p) as [(sz & data & Hp)|(e & Hp)].
    + opened Hp.
      destruct (size_eqb sz base_size) eqn:E; simpl; [|discriminate].
      apply size_eqb_eq in E. subst sz. intros Hrest. constructor.
      * exists data. exact Hp.
      * apply IH in Hrest. exact Hrest.
    + refused Hp. simpl. discriminate.
Qed.

(** A list that the validator accepts is not empty and all its fragments
    open with the size returned. *)
Lemma check_image_sizes_sound file_paths w sz :
  (check_image_sizes file_paths w).1 = Return (true, Some sz) →
  file_paths ≠ [] ∧ Forall (λ p, ∃ data, opens_as w p sz data) file_paths.
Proof.
  destruct file_paths as [|first others]; simpl; [discriminate|].
  unfold try_except, bind.
  destruct (open_cases w first) as [(sz0 & data & Hp)|(e & Hp)].
  - opened Hp.
    pose proof (check_rest_true sz0 others (after_with w)) as Hrest.
    destruct (check_rest sz0 others (after_with w)) as [[[]|e] w2];
      simpl in *; try discriminate.
    intros [= <-]. split; [discriminate|]. constructor.
    + exists data. exact Hp.
    + specialize (Hrest eq_refl). exact Hrest.
  - refused Hp. simpl. discriminate.
Qed.

Lemma validated_sizes file_paths frags w sz :
  Forall (λ p, ∃ data, opens_as w p sz data) file_paths →
  Forall2 (readable w) file_paths frags →
  Forall (λ f : size * raster, f.1 = sz) frags.
Proof.
  intros Hsz Hall. induction Hall as [|p f ps fs' Hp _ IH]; constructor.
  - apply Forall_cons in Hsz as [[d Hd] _].
    unfold readable, opens_as in *. congruence.
  - apply IH. apply Forall_cons in Hsz as [_ Hsz]. exact Hsz.
Qed.

(** C3: for a validated list of n fragments of size (w,h) whose pixels
    decode, with no fault at the output path, horizontal composition writes
    an image of size (n·w, h) and vertical composition one of size
    (w, n·h). *)
Theorem concatenate_images_size (w : world) (file_paths : list string)
    (frags : list (size * raster)) (width height : Z) (output_path : string) :
  (check_image_sizes file_paths w).1 = Return (true, Some (width, height)) →
  Forall2 (readable w) file_paths frags →
  0 ≤ width → 0 ≤ height →
  save_faults w !! output_path = None →
  let n := Z.of_nat (length file_paths) in
  (∃ w' pixels,
      concatenate_images file_paths "horizontal" output_path w
      = (Return true, w') ∧
      fs w' !! output_path = Some (ImageFile (n * width, height) (Some pixels)))
  ∧
  (∃ w' pixels,
      concatenate_images file_paths "vertical" output_path w
      = (Return true, w') ∧
      fs w' !! output_path = Some (ImageFile (width, n * height) (Some pixels))).
Proof.
  intros Hvalid Hall Hw Hh Hsave n.
  apply check_image_sizes_sound in Hvalid as [Hne Hsz].
  pose proof (validated_sizes _ _ _ _ Hsz Hall) as Hsizes.
  assert (length file_paths = length frags) as Hlen
    by (eapply Forall2_length; exact Hall).
  destruct frags as [|f frags'].
  { apply Forall2_nil_inv_r in Hall. contradiction. }
  apply Forall_cons in Hsizes as [Hf _].
  assert (0 ≤ f.1.1 ∧ 0 ≤ f.1.2) as Hpos by (rewrite Hf; split; assumption).
  split.
  - rewrite (concatenate_images_ok _ "horizontal" _ _ _ Hall Hpos Hsave).
    eexists _, _. split; [reflexivity|]. simpl fs.
    rewrite lookup_insert_eq. unfold composed. rewrite Hf. simpl c_size.
    subst n. rewrite Hlen, (Z.mul_comm width). reflexivity.
  - rewrite (concatenate_images_ok _ "vertical" _ _ _ Hall Hpos Hsave).
    eexists _, _. split; [reflexivity|]. simpl fs.
    rewrite lookup_insert_eq. unfold composed. rewrite Hf. simpl c_size.
    subst n. rewrite Hlen, (Z.mul_comm height). reflexivity.
Qed.

Lemma concatenate_images_size_witness :
  let n := Z.of_nat (length [frame_01; frame_02]) in
  (∃ w' pixels,
      concatenate_images [frame_01; frame_02] "horizontal" out_png sample_world
      = (Return true, w') ∧
      fs w' !! out_png = Some (ImageFile (n * 100, 50) (Some pixels)))
  ∧
  (∃ w' pixels,
      concatenate_images [frame_01; frame_02] "vertical" out_png sample_world
      = (Return true, w') ∧
      fs w' !! out_png = Some (ImageFile (100, n * 50) (Some pixels))).
Proof.
  apply (concatenate_images_size sample_world [frame_01; frame_02]
           [((100, 50), tint 1); ((100, 50), tint 2)] 100 50 out_png).
  - vm_compute. reflexivity.
  - repeat constructor.
  - lia.
  - lia.
  - reflexivity.
Defined.

(** ** Where the fragments land *)

Lemma composed_horizontal (first : size * raster) rest width height :
  first.1 = (width, height) →
  let c := composed "horizontal" (first :: rest) in
  c_size c = (Z.of_nat (length (first :: rest)) * width, height) ∧
  pasted_in_row c width (first :: rest).
Proof.
  intros Hf c. subst c. unfold composed. cbv beta iota. rewrite Hf.
  change (String.eqb "horizontal" "horizontal") with true. cbv beta iota.
  unfold pasted_in_row. cbn [c_size c_pastes]. split; [|split].
  - rewrite Z.mul_comm. reflexivity.
  - apply row_pastes_length.
  - intros i f Hi. rewrite row_pastes_lookup, Hi. reflexivity.
Qed.

Lemma composed_vertical direction (first : size * raster) rest width height :
  String.eqb direction "horizontal" = false →
  first.1 = (width, height) →
  let c := composed direction (first :: rest) in
  c_size c = (width, Z.of_nat (length (first :: rest)) * height) ∧
  pasted_in_column c height (first :: rest).
Proof.
  intros Hdir Hf c. subst c. unfold composed. cbv beta iota.
  rewrite Hf, Hdir. cbv beta iota.
  unfold pasted_in_column. cbn [c_size c_pastes]. split; [|split].
  - rewrite Z.mul_comm. reflexivity.
  - apply column_pastes_length.
  - intros i f Hi. rewrite column_pastes_lookup, Hi. reflexivity.
Qed.

(** C10: whatever the sizes of the other fragments, the canvas and the
    offsets come from the first image alone: with first size (w,h) and n
    decodable fragments, the canvas is (n·w, h) with fragment i at (i·w, 0)
    for the horizontal direction, and (w, n·h) with fragment i at (0, i·h)
    for any other direction. *)
Theorem concatenate_images_first_size (w : world) (file_paths : list string)
    (first : size * raster) (others : list (size * raster))
    (width height : Z) (direction output_path : string) :
  Forall2 (readable w) file_paths (first :: others) →
  first.1 = (width, height) →
  0 ≤ width → 0 ≤ height →
  save_faults w !! output_path = None →
  let n := Z.of_nat (length file_paths) in
  ∃ w' c,
    concatenate_images file_paths direction output_path w = (Return true, w') ∧
    fs w' !! output_path = Some (ImageFile (c_size c) (Some (render c))) ∧
    if String.eqb direction "horizontal"
    then c_size c = (n * width, height) ∧
         pasted_in_row c width (first :: others)
    else c_size c = (width, n * height) ∧
         pasted_in_column c height (first :: others).
Proof.
  intros Hall Hf Hw Hh Hsave n.
  assert (length file_paths = length (first :: others)) as Hlen
    by (eapply Forall2_length; exact Hall).
  assert (0 ≤ first.1.1 ∧ 0 ≤ first.1.2) as Hpos by (rewrite Hf; split; assumption).
  rewrite (concatenate_images_ok _ direction _ _ _ Hall Hpos Hsave).
  eexists _, (composed direction (first :: others)).
  split; [reflexivity|]. split; [simpl fs; apply lookup_insert_eq|].
  subst n. rewrite Hlen.
  destruct (String.eqb direction "horizontal") eqn:Hdir.
  - apply String.eqb_eq in Hdir. subst direction.
    apply composed_horizontal. exact Hf.
  - apply composed_vertical; assumption.
Qed.

(** Fragments of different sizes: the 80x50 one is pasted at (200, 0). *)
Lemma concatenate_images_first_size_witness :
  ∃ w' c,
    concatenate_images [frame_01; frame_02; frame_03] "horizontal" out_png
                       sample_world = (Return true, w') ∧
    fs w' !! out_png = Some (ImageFile (c_size c) (Some (render c))) ∧
    c_size c = (3 * 100, 50) ∧
    pasted_in_row c 100
      [((100, 50), tint 1); ((100, 50), tint 2); ((80, 50), tint 3)].
Proof.
  apply (concatenate_images_first_size sample_world
           [frame_01; frame_02; frame_03]
           ((100, 50), tint 1) [((100, 50), tint 2); ((80, 50), tint 3)]
           100 50 "horizontal" out_png).
  - repeat constructor.
  - reflexivity.
  - lia.
  - lia.
  - reflexivity.
Defined.

(** *** Pixels *)

Lemma apply_pastes_cons p ps under :
  apply_pastes (p :: ps) under = apply_pastes ps (apply_paste p under).
Proof. reflexivity. Qed.

Lemma apply_pastes_uncovered ps under x y :
  Forall (λ p, covers p x y = false) ps →
  apply_pastes ps under x y = under x y.
Proof.
  intros Hun. revert under. induction Hun as [|p ps Hp _ IH]; intros under.
  - reflexivity.
  - rewrite apply_pastes_cons, IH. unfold apply_paste. rewrite Hp. reflexivity.
Qed.

Lemma row_pastes_right_of width x_offset frags x y :
  0 ≤ width → x < x_offset →
  Forall (λ p, covers p x y = false) (row_pastes width x_offset frags).
Proof.
  intros Hw. revert x_offset. induction frags as [|f rest IH]; intros x0 Hx.
  - constructor.
  - simpl. constructor.
    + unfold covers. simpl. replace (x0 <=? x) with false; [reflexivity|].
      symmetry. apply Z.leb_gt. lia.
    + apply IH. lia.
Qed.

Lemma column_pastes_below height y_offset frags x y :
  0 ≤ height → y < y_offset →
  Forall (λ p, covers p x y = false) (column_pastes height y_offset frags).
Proof.
  intros Hh. revert y_offset. induction frags as [|f rest IH]; intros y0 Hy.
  - constructor.
  - simpl. constructor.
    + unfold covers. simpl. replace (y0 <=? y) with false.
      * rewrite andb_false_r. reflexivity.
      * symmetry. apply Z.leb_gt. lia.
    + apply IH. lia.
Qed.

Lemma covers_inside pixels width height ox oy x y :
  ox ≤ x < ox + width → oy ≤ y < oy + height →
  covers (Pasted pixels (width, height) (ox, oy)) x y = true.
Proof.
  intros Hx Hy. unfold covers. simpl.
  rewrite !andb_true_iff, !Z.leb_le, !Z.ltb_lt. lia.
Qed.

(** In a row of fragments of one size, fragment [i] fills its own cell. *)
Lemma row_pixel width height x_offset (frags : list (size * raster)) under
    (i : nat) (f : size * raster) dx dy :
  Forall (λ f : size * raster, f.1 = (width, height)) frags →
  frags !! i = Some f →
  0 ≤ dx < width → 0 ≤ dy < height →
  apply_pastes (row_pastes width x_offset frags) under
               (x_offset + Z.of_nat i * width + dx) dy
  = f.2 dx dy.
Proof.
  intros Hsz Hi Hx Hy. revert x_offset under i Hi.
  induction Hsz as [|g rest Hg _ IH]; intros x0 under i Hi; [discriminate|].
  simpl row_pastes. rewrite apply_pastes_cons. destruct i as [|i].
  - injection Hi as ->. rewrite apply_pastes_uncovered.
    + unfold apply_paste. cbn [p_pixels p_offset fst snd].
      replace (covers _ _ _) with true; [f_equal; lia|].
      symmetry. rewrite Hg. apply covers_inside; lia.
    + apply row_pastes_right_of; lia.
  - replace (x0 + Z.of_nat (S i) * width + dx)
      with ((x0 + width) + Z.of_nat i * width + dx) by lia.
    apply IH. exact Hi.
Qed.

Lemma column_pixel width height y_offset (frags : list (size * raster)) under
    (i : nat) (f : size * raster) dx dy :
  Forall (λ f : size * raster, f.1 = (width, height)) frags →
  frags !! i = Some f →
  0 ≤ dx < width → 0 ≤ dy < height →
  apply_pastes (column_pastes height y_offset frags) under
               dx (y_offset + Z.of_nat i * height + dy)
  = f.2 dx dy.
Proof.
  intros Hsz Hi Hx Hy. revert y_offset under i Hi.
  induction Hsz as [|g rest Hg _ IH]; intros y0 under i Hi; [discriminate|].
  simpl column_pastes. rewrite apply_pastes_cons. destruct i as [|i].
  - injection Hi as ->. rewrite apply_pastes_uncovered.
    + unfold apply_paste. cbn [p_pixels p_offset fst snd].
      replace (covers _ _ _) with true; [f_equal; lia|].
      symmetry. rewrite Hg. apply covers_inside; lia.
    + apply column_pastes_below; lia.
  - replace (y0 + Z.of_nat (S i) * height + dy)
      with ((y0 + height) + Z.of_nat i * height + dy) by lia.
    apply IH. exact Hi.
Qed.

Lemma render_row width height (frags : list (size * raster)) (i : nat)
    (f : size * raster) dx dy :
  Forall (λ f : size * raster, f.1 = (width, height)) frags →
  frags !! i = Some f →
  0 ≤ dx < width → 0 ≤ dy < height →
  render (composed "horizontal" frags) (Z.of_nat i * width + dx) dy
  = f.2 dx dy.
Proof.
  intros Hsz Hi Hx Hy.
  pose proof (lookup_lt_Some _ _ _ Hi) as Hlt.
  destruct frags as [|g rest]; [discriminate|].
  pose proof Hsz as Hsz'. apply Forall_cons in Hsz' as [Hg _].
  unfold composed. cbv beta iota. rewrite Hg.
  change (String.eqb "horizontal" "horizontal") with true. cbv beta iota.
  unfold render. cbn [c_size c_pastes fst snd].
  replace (_ && _ && _ && _) with true.
  - rewrite <- (row_pixel width height 0 (g :: rest) (λ _ _, transparent)
                  i f dx dy Hsz Hi Hx Hy).
    f_equal; lia.
  - symmetry. rewrite !andb_true_iff, !Z.leb_le, !Z.ltb_lt.
    assert (Z.of_nat i + 1 ≤ Z.of_nat (length (g :: rest))) as Hn by lia.
    set (n := Z.of_nat (length (g :: rest))) in *.
    set (k := Z.of_nat i) in *.
    assert (0 ≤ k) by lia.
    repeat split; try lia; nia.
Qed.

Lemma render_column direction width height (frags : list (size * raster))
    (i : nat) (f : size * raster) dx dy :
  String.eqb direction "horizontal" = false →
  Forall (λ f : size * raster, f.1 = (width, height)) frags →
  frags !! i = Some f →
  0 ≤ dx < width → 0 ≤ dy < height →
  render (composed direction frags) dx (Z.of_nat i * height + dy)
  = f.2 dx dy.
Proof.
  intros Hdir Hsz Hi Hx Hy.
  pose proof (lookup_lt_Some _ _ _ Hi) as Hlt.
  destruct frags as [|g rest]; [discriminate|].
  pose proof Hsz as Hsz'. apply Forall_cons in Hsz' as [Hg _].
  unfold composed. cbv beta iota. rewrite Hg, Hdir. cbv beta iota.
  unfold render. cbn [c_size c_pastes fst snd].
  replace (_ && _ && _ && _) with true.
  - rewrite <- (column_pixel width height 0 (g :: rest) (λ _ _, transparent)
                  i f dx dy Hsz Hi Hx Hy).
    f_equal; lia.
  - symmetry. rewrite !andb_true_iff, !Z.leb_le, !Z.ltb_lt.
    assert (Z.of_nat i + 1 ≤ Z.of_nat (length (g :: rest))) as Hn by lia.
    set (n := Z.of_nat (length (g :: rest))) in *.
    set (k := Z.of_nat i) in *.
    assert (0 ≤ k) by lia.
    repeat split; try lia; nia.
Qed.

(** ** Discovery *)

Lemma append_cons c (a b : string) : String c a +:+ b = String c (a +:+ b).
Proof. reflexivity. Qed.

Lemma compare_common_prefix (d a b : string) :
  String.compare (d +:+ a) (d +:+ b) = String.compare a b.
Proof.
  induction d as [|c d IH]; [reflexivity|].
  rewrite !append_cons. simpl String.compare.
  replace (Ascii.compare c c) with Eq; [exact IH|].
  symmetry. unfold Ascii.compare. apply N.compare_refl.
Qed.

Lemma le_common_prefix (d a b : string) :
  String.le (d +:+ a) (d +:+ b) ↔ String.le a b.
Proof.
  unfold String.le, String.leb. rewrite compare_common_prefix. reflexivity.
Qed.

Lemma split_path_join (p : string) :
  (split_path p).1 +:+ (split_path p).2 = p.
Proof.
  induction p as [|c rest IH]; [reflexivity|].
  simpl split_path. destruct (has_slash rest).
  - destruct (split_path rest) as [d b]. simpl in *.
    rewrite append_cons, IH. reflexivity.
  - destruct (Ascii.eqb c "/") eqn:E; simpl.
    + apply Ascii.eqb_eq in E. subst c. reflexivity.
    + reflexivity.
Qed.

Lemma glob_glob_same_directory pattern w :
  Forall (λ p, (split_path p).1 = folder_prefix (os_path_dirname pattern))
         (glob_glob pattern w).
Proof.
  unfold glob_glob. cbv zeta.
  apply Forall_forall. intros p Hp.
  apply list_elem_of_filter in Hp as [[Hdir _] _]. exact Hdir.
Qed.

Lemma sorted_by_file_name (dir : string) (l : list string) :
  Forall (λ p, (split_path p).1 = dir) l →
  StronglySorted (λ p q, String.le (split_path p).2 (split_path q).2)
                 (sorted l).
Proof.
  intros Hdir.
  assert (Forall (λ p, (split_path p).1 = dir) (sorted l)) as Hdir'.
  { unfold sorted. rewrite merge_sort_Permutation. exact Hdir. }
  pose proof (StronglySorted_merge_sort String.le l) as Hs.
  fold (sorted l) in Hs. clear Hdir.
  induction Hs as [|p ps _ IH Hall]; constructor.
  - apply IH. apply Forall_cons in Hdir' as [_ H]. exact H.
  - apply Forall_cons in Hdir' as [Hp Hps].
    apply Forall_forall. intros q Hq.
    rewrite Forall_forall in Hall. specialize (Hall q Hq).
    rewrite Forall_forall in Hps. specialize (Hps q Hq).
    rewrite <- (split_path_join p), <- (split_path_join q) in Hall.
    rewrite Hp, Hps in Hall. apply le_common_prefix in Hall. exact Hall.
Qed.

(** [find_segment_files] returns the matching files, each once, in
    ascending order of the path and of the file name. *)
Lemma find_segment_files_sorted folder_path w :
  let files := find_segment_files folder_path w in
  files ≡ₚ glob_glob (os_path_join folder_path "segment_*.png") w ∧
  StronglySorted String.le files ∧
  StronglySorted (λ p q, String.le (split_path p).2 (split_path q).2) files.
Proof.
  unfold find_segment_files. cbv zeta. split; [|split].
  - apply merge_sort_Permutation.
  - apply (StronglySorted_merge_sort String.le).
  - eapply sorted_by_file_name. apply glob_glob_same_directory.
Qed.

(** C4: the fragments found in a folder whose path has none of the
    wildcards of [glob] come in ascending order of their file names, and
    for a validated list of common size (w,h) the compositor pastes the
    fragment at position i of that order at (i·w, 0) for the horizontal
    direction and at (0, i·h) for the vertical one; the cell i of the
    output shows the pixels of fragment i. *)
Theorem segments_pasted_in_order (w : world) (folder_path : string)
    (frags : list (size * raster)) (width height : Z) (output_path : string) :
  let file_paths := find_segment_files folder_path w in
  has_magic folder_path = false →
  (check_image_sizes file_paths w).1 = Return (true, Some (width, height)) →
  Forall2 (readable w) file_paths frags →
  0 ≤ width → 0 ≤ height →
  save_faults w !! output_path = None →
  StronglySorted (λ p q, String.le (split_path p).2 (split_path q).2)
                 file_paths ∧
  (∃ w' c,
      concatenate_images file_paths "horizontal" output_path w
      = (Return true, w') ∧
      fs w' !! output_path = Some (ImageFile (c_size c) (Some (render c))) ∧
      pasted_in_row c width frags ∧
      ∀ (i : nat) f dx dy, frags !! i = Some f →
        0 ≤ dx < width → 0 ≤ dy < height →
        render c (Z.of_nat i * width + dx) dy = f.2 dx dy)
  ∧
  (∃ w' c,
      concatenate_images file_paths "vertical" output_path w
      = (Return true, w') ∧
      fs w' !! output_path = Some (ImageFile (c_size c) (Some (render c))) ∧
      pasted_in_column c height frags ∧
      ∀ (i : nat) f dx dy, frags !! i = Some f →
        0 ≤ dx < width → 0 ≤ dy < height →
        render c dx (Z.of_nat i * height + dy) = f.2 dx dy).
Proof.
  intros file_paths _ Hvalid Hall Hw Hh Hsave.
  split; [apply find_segment_files_sorted|].
  apply check_image_sizes_sound in Hvalid as [Hne Hsz].
  pose proof (validated_sizes _ _ _ _ Hsz Hall) as Hsizes.
  destruct frags as [|first others].
  { apply Forall2_nil_inv_r in Hall. contradiction. }
  pose proof Hsizes as Hfirst. apply Forall_cons in Hfirst as [Hfirst _].
  assert (0 ≤ first.1.1 ∧ 0 ≤ first.1.2) as Hpos
    by (rewrite Hfirst; split; assumption).
  split.
  - rewrite (concatenate_images_ok _ "horizontal" _ _ _ Hall Hpos Hsave).
    eexists _, (composed "horizontal" (first :: others)).
    split; [reflexivity|]. split; [simpl fs; apply lookup_insert_eq|]. split.
    + apply (composed_horizontal first others width height Hfirst).
    + intros i f dx dy Hi Hx Hy.
      apply (render_row width height _ i f dx dy Hsizes Hi Hx Hy).
  - rewrite (concatenate_images_ok _ "vertical" _ _ _ Hall Hpos Hsave).
    eexists _, (composed "vertical" (first :: others)).
    split; [reflexivity|]. split; [simpl fs; apply lookup_insert_eq|]. split.
    + apply (composed_vertical "vertical" first others width height eq_refl
               Hfirst).
    + intros i f dx dy Hi Hx Hy.
      apply (render_column "vertical" width height _ i f dx dy eq_refl
               Hsizes Hi Hx Hy).
Qed.

(** In the folder of tiles, [segment_10.png] sorts before [segment_2.png]
    and is pasted first. *)
Lemma segments_pasted_in_order_witness :
  let file_paths := find_segment_files "tiles" sample_world in
  let frags := [((64, 64), tint 5); ((64, 64), tint 4)] in
  StronglySorted (λ p q, String.le (split_path p).2 (split_path q).2)
                 file_paths ∧
  (∃ w' c,
      concatenate_images file_paths "horizontal" out_png sample_world
      = (Return true, w') ∧
      fs w' !! out_png = Some (ImageFile (c_size c) (Some (render c))) ∧
      pasted_in_row c 64 frags ∧
      ∀ (i : nat) f dx dy, frags !! i = Some f →
        0 ≤ dx < 64 → 0 ≤ dy < 64 →
        render c (Z.of_nat i * 64 + dx) dy = f.2 dx dy)
  ∧
  (∃ w' c,
      concatenate_images file_paths "vertical" out_png sample_world
      = (Return true, w') ∧
      fs w' !! out_png = Some (ImageFile (c_size c) (Some (render c))) ∧
      pasted_in_column c 64 frags ∧
      ∀ (i : nat) f dx dy, frags !! i = Some f →
        0 ≤ dx < 64 → 0 ≤ dy < 64 →
        render c dx (Z.of_nat i * 64 + dy) = f.2 dx dy).
Proof.
  apply (segments_pasted_in_order sample_world "tiles"
           [((64, 64), tint 5); ((64, 64), tint 4)] 64 64 out_png).
  - reflexivity.
  - vm_compute. reflexivity.
  - vm_compute. repeat constructor.
  - lia.
  - lia.
  - reflexivity.
Defined.

Example find_segment_files_tiles :
  find_segment_files "tiles" sample_world = [tile_10; tile_2].
Proof. vm_compute. reflexivity. Qed.

Example find_segment_files_frames :
  find_segment_files "frames/" sample_world = [frame_01; frame_02; frame_03].
Proof. vm_compute. reflexivity. Qed.

(** ** Failures of the validator *)

(** C6, refuted as stated: a list with a missing file whose second fragment
    already has another size is rejected for the sizes, the missing file is
    never opened and nothing is printed; and the value returned for a read
    error is the value returned for a size mismatch. *)
Lemma read_error_not_always_surfaced :
  ¬ (∀ w file_paths,
       (∃ p e, p ∈ file_paths ∧ open_error w p = Some e) →
       surfaces_read_error w (check_image_sizes file_paths w)) ∧
  (check_image_sizes [missing_frame] sample_world).1
  = (check_image_sizes [frame_01; frame_03] sample_world).1.
Proof.
  split; [|reflexivity].
  intros Hclaim.
  destruct (Hclaim sample_world [frame_01; frame_03; missing_frame])
    as [_ [e He]].
  - exists missing_frame, (FileNotFoundError missing_frame). split.
    + apply list_elem_of_In. simpl. right. right. left. reflexivity.
    + reflexivity.
  - vm_compute in He. discriminate.
Qed.

Lemma check_rest_unreadable base_size before p after e w :
  Forall (λ q, ∃ data, opens_as w q base_size data) before →
  open_error w p = Some e →
  ∃ w', check_rest base_size (before ++ p :: after) w = (Raise e, w') ∧
        quiet w w'.
Proof.
  revert w. induction before as [|q rest IH]; intros w Hall Hp; simpl.
  - unfold bind. refused Hp.
    eexists. split; [reflexivity|apply quiet_refl].
  - apply Forall_cons in Hall as [[data Hq] Hrest].
    unfold bind. opened Hq.
    rewrite size_eqb_refl.
    destruct (IH (after_with w)) as (w' & Hrun & Hquiet).
    + exact Hrest.
    + exact Hp.
    + exists w'. split; [exact Hrun|].
      eapply quiet_trans; [apply quiet_after_with|exact Hquiet].
Qed.

(** C6, amended: when a file that cannot be opened comes before any fragment
    of another size, the validator raises nothing: it prints one line with
    the exception and returns failure and no size, leaving the files as they
    were. *)
Theorem check_image_sizes_unreadable (w : world) (before after : list string)
    (p : string) (e : exn) (sz : size) :
  Forall (λ q, ∃ data, opens_as w q sz data) before →
  open_error w p = Some e →
  ∃ w', check_image_sizes (before ++ p :: after) w
        = (Return (false, None), w') ∧
        stdout w' = stdout w ++ [check_error_prefix +:+ str_exn e] ∧
        fs w' = fs w.
Proof.
  intros Hall Hp. destruct before as [|first others].
  - simpl. unfold try_except, bind. refused Hp.
    eexists. split; [reflexivity|]. split; reflexivity.
  - apply Forall_cons in Hall as [[data Hfirst] Hothers].
    simpl. unfold try_except, bind.
    opened Hfirst.
    destruct (check_rest_unreadable sz others p after e (after_with w))
      as (w' & Hrun & Hfs & _ & Hout).
    + exact Hothers.
    + exact Hp.
    + rewrite Hrun. eexists. split; [reflexivity|]. simpl.
      rewrite Hout, Hfs. split; reflexivity.
Qed.

Lemma check_image_sizes_unreadable_witness :
  ∃ w', check_image_sizes ([frame_01; frame_02] ++ missing_frame :: [frame_03])
                          sample_world
        = (Return (false, None), w') ∧
        stdout w' = stdout sample_world
                    ++ [check_error_prefix
                        +:+ str_exn (FileNotFoundError missing_frame)] ∧
        fs w' = fs sample_world.
Proof.
  apply (check_image_sizes_unreadable sample_world [frame_01; frame_02]
           [frame_03] missing_frame (FileNotFoundError missing_frame)
           (100, 50)).
  - repeat constructor; eexists; reflexivity.
  - reflexivity.
Defined.

(** ** Handles of the compositor *)

(** On its success path the compositor closes every image it opened. *)
Lemma concatenate_images_ok_releases file_paths direction output_path frags w :
  handles_wf w →
  Forall2 (readable w) file_paths frags →
  match frags with
  | [] => False
  | first :: _ => 0 ≤ first.1.1 ∧ 0 ≤ first.1.2
  end →
  save_faults w !! output_path = None →
  open_handles (concatenate_images file_paths direction output_path w).2
  = open_handles w.
Proof.
  intros Hwf Hall Hpos Hsave.
  rewrite (concatenate_images_ok _ _ _ _ _ Hall Hpos Hsave). simpl.
  rewrite <- (length_map (λ f : size * raster, (f.1, Some f.2)) frags).
  apply close_all_opened. exact Hwf.
Qed.

(** When a fragment does not open, the images opened before it are never
    closed: their handles are still open on return. *)
Lemma open_images_error images before p after e w
    (files : list (size * option raster)) :
  Forall2 (λ q f, opens_as w q f.1 f.2) before files →
  open_error w p = Some e →
  open_images images (before ++ p :: after) w
  = (Raise e,
     World (fs w) (save_faults w)
           (rev (seq (next_handle w) (length files)) ++ open_handles w)
           (next_handle w + length files) (stdout w)).
Proof.
  revert files images w.
  induction before as [|q rest IH]; intros files images w Hall Hp.
  - apply Forall2_nil_inv_l in Hall as ->. simpl.
    unfold bind, Image_open. unfold open_error in Hp.
    rewrite Nat.add_0_r.
    destruct (fs w !! p) as [[| | | |sz data]|]; try discriminate;
      injection Hp as <-; destruct w; reflexivity.
  - apply Forall2_cons_inv_l in Hall as (f & files' & Hq & Hrest & ->).
    simpl. unfold bind, Image_open. unfold opens_as in Hq. rewrite Hq.
    rewrite (IH files'); [|exact Hrest|exact Hp].
    simpl. rewrite <- !app_assoc. simpl. rewrite Nat.add_succ_r. reflexivity.
Qed.

(** X4: when the fragments before [p] open and [Image.open] rejects [p], the
    compositor raises nothing and returns [False] after printing one line
    with the exception text; no file is touched, the fragments after [p] are
    never opened, and the handles of the fragments opened before [p], one
    per fragment, are still open on return. *)
Lemma concatenate_images_open_error before p after e direction output_path w
    (files : list (size * option raster)) :
  Forall2 (λ q f, opens_as w q f.1 f.2) before files →
  open_error w p = Some e →
  concatenate_images (before ++ p :: after) direction output_path w
  = (Return false,
     World (fs w) (save_faults w)
           (rev (seq (next_handle w) (length files)) ++ open_handles w)
           (next_handle w + length files)
           (stdout w ++ [concat_error_prefix +:+ str_exn e])).
Proof.
  intros Hall Hp.
  assert (∃ q rest, before ++ p :: after = q :: rest) as (q & rest & Heq)
    by (destruct before; simpl; eauto).
  unfold concatenate_images. rewrite Heq, <- Heq.
  unfold try_except. unfold bind at 1.
  rewrite (open_images_error [] before p after e w files Hall Hp).
  reflexivity.
Qed.

(** C7, the failing input: the second path does not exist; the handle of
    the first image is still open when [concatenate_images] returns. *)
Lemma concatenate_images_leaks_handle :
  let r := concatenate_images [frame_01; missing_frame] "horizontal" out_png
                              sample_world in
  r.1 = Return false ∧
  open_handles sample_world = [] ∧
  open_handles r.2 = [0%nat].
Proof. vm_compute. repeat split. Qed.

(** ** Partial failure of the compositor *)

(** C8, refuted as stated: the save fails, [concatenate_images] returns
    failure, and the output path now holds the truncated file. *)
Lemma failed_save_leaves_partial_file :
  ¬ (∀ w file_paths direction output_path,
       (concatenate_images file_paths direction output_path w).1
       = Return false →
       fs (concatenate_images file_paths direction output_path w).2
          !! output_path
       = fs w !! output_path).
Proof.
  intros Hclaim.
  specialize (Hclaim full_disk_world [frame_01; frame_02] "vertical" out_png
                eq_refl).
  vm_compute in Hclaim. discriminate.
Qed.

(** C8, amended: [concatenate_images] never raises.  It returns success
    only after the composed image was written to the output path.  When
    it returns failure, either no file was touched (a fragment did not
    open, or composing failed), or the save itself failed and the output
    path holds what the failed write left. *)
Theorem concatenate_images_outcome (w : world) (file_paths : list string)
    (direction output_path : string) :
  ∃ (ok : bool) w',
    concatenate_images file_paths direction output_path w = (Return ok, w') ∧
    if ok
    then ∃ c, fs w' = <[output_path := ImageFile (c_size c) (Some (render c))]>
                        (fs w)
    else fs w' = fs w ∨
         ∃ left_over,
           save_faults w !! output_path = Some left_over ∧
           fs w' = match left_over with
                   | Some f => <[output_path := f]> (fs w)
                   | None => delete output_path (fs w)
                   end.
Proof.
  destruct file_paths as [|p rest].
  { exists false, w. split; [reflexivity|]. left. reflexivity. }
  unfold concatenate_images, try_except, bind.
  pose proof (open_images_quiet [] (p :: rest) w) as (Hfs1 & Hsf1 & _).
  destruct (open_images [] (p :: rest) w) as [[images|e] w1]; simpl in *.
  2:{ eexists false, _. split; [reflexivity|]. left. exact Hfs1. }
  pose proof (compose_world images direction w1) as Hw2.
  destruct (compose images direction w1) as [[c|e] w2]; simpl in Hw2; subst w2.
  2:{ eexists false, _. split; [reflexivity|]. left. exact Hfs1. }
  unfold Image_save. rewrite Hsf1.
  destruct (save_faults w !! output_path) as [left_over|] eqn:Hfault.
  - eexists false, _. split; [reflexivity|]. right.
    exists left_over. split; [reflexivity|]. simpl. rewrite Hfs1. reflexivity.
  - rewrite close_images_eq. eexists true, _. split; [reflexivity|].
    exists c. simpl. rewrite Hfs1. reflexivity.
Qed.

(** ** The output file name *)

Lemma list_ascii_of_string_append (a b : string) :
  String.list_ascii_of_string (a +:+ b)
  = String.list_ascii_of_string a ++ String.list_ascii_of_string b.
Proof.
  induction a as [|c a IH]; [reflexivity|].
  rewrite append_cons. simpl. rewrite IH. reflexivity.
Qed.

Lemma append_inj_suffix (a b s : string) : a +:+ s = b +:+ s → a = b.
Proof.
  intros H. apply (f_equal String.list_ascii_of_string) in H.
  rewrite !list_ascii_of_string_append in H. apply app_inv_tail in H.
  rewrite <- (String.string_of_list_ascii_of_string a),
          <- (String.string_of_list_ascii_of_string b), H.
  reflexivity.
Qed.

Lemma str_inj (n m : N) : str n = str m → n = m.
Proof.
  unfold str. intros H. apply DecimalN.Unsigned.to_uint_inj.
  apply (f_equal NilEmpty.uint_of_string) in H.
  rewrite !NilEmpty.usu in H. injection H as H. exact H.
Qed.

Lemma strftime_same_second (a b : datetime) :
  same_second a b → strftime a = strftime b.
Proof.
  intros (Hy & Hmo & Hd & Hh & Hmi & Hs). unfold strftime.
  rewrite Hy, Hmo, Hd, Hh, Hmi, Hs. reflexivity.
Qed.

(** C5, refuted as stated: two runs of the same second that draw the same
    suffix get the same output path. *)
Lemma random_suffix_can_collide :
  ¬ (∀ now1 now2 r1 r2,
       same_second now1 now2 → randint_100_999 r1 → randint_100_999 r2 →
       output_path now1 r1 ≠ output_path now2 r2).
Proof.
  intros Hclaim.
  apply (Hclaim morning same_morning 500%N 500%N).
  - repeat split.
  - unfold randint_100_999. lia.
  - unfold randint_100_999. lia.
  - reflexivity.
Qed.

(** C5, amended: two runs of the same second get the same output path
    exactly when they draw the same random suffix. *)
Theorem output_path_same_second (now1 now2 : datetime) (r1 r2 : N) :
  same_second now1 now2 →
  output_path now1 r1 = output_path now2 r2 ↔ r1 = r2.
Proof.
  intros Hsame. unfold output_path, output_filename.
  rewrite (strftime_same_second _ _ Hsame). split.
  - intros H. do 3 apply String.app_inj in H.
    apply append_inj_suffix in H. apply str_inj. exact H.
  - intros ->. reflexivity.
Qed.

Lemma output_path_same_second_witness :
  output_path morning 500 = output_path same_morning 500 ↔ 500%N = 500%N.
Proof.
  apply (output_path_same_second morning same_morning 500 500).
  repeat split.
Defined.

(** * Further properties of the validator *)

(** X1: the validator accepts a list with the size [sz] exactly when the
    list is not empty and every fragment opens with that size. *)
Theorem check_image_sizes_accepts_iff (w : world) (file_paths : list string)
    (sz : size) :
  (check_image_sizes file_paths w).1 = Return (true, Some sz)
  ↔ file_paths ≠ [] ∧ Forall (λ p, ∃ data, opens_as w p sz data) file_paths.
Proof.
  split; [apply check_image_sizes_sound|].
  intros [Hne Hall]. destruct file_paths as [|first others]; [contradiction|].
  apply Forall_cons in Hall as [[data Hfirst] Hothers].
  simpl. unfold try_except, bind. opened Hfirst.
  pose proof (check_rest_all_same sz others (after_with w) Hothers) as Hrest.
  destruct (check_rest sz others (after_with w)) as [r w2].
  simpl in Hrest. subst r. reflexivity.
Qed.

(** X2: whatever the files, the validator raises nothing, returns either
    failure without a size or success with one, changes no file, leaves
    no handle open, and prints nothing when it succeeds. *)
Theorem check_image_sizes_footprint (w : world) (file_paths : list string) :
  handles_wf w →
  ∃ w',
    (check_image_sizes file_paths w = (Return (false, None), w') ∨
     ∃ sz, check_image_sizes file_paths w = (Return (true, Some sz), w') ∧
           stdout w' = stdout w) ∧
    fs w' = fs w ∧ save_faults w' = save_faults w ∧
    open_handles w' = open_handles w.
Proof.
  intros Hwf. pose proof (check_image_sizes_releases file_paths w Hwf) as Hh.
  destruct file_paths as [|first others].
  { exists w. split; [left; reflexivity|]. split; [|split]; reflexivity. }
  revert Hh. simpl. unfold try_except, bind.
  destruct (open_cases w first) as [(sz & data & Hp)|(e & Hp)].
  - opened Hp.
    pose proof (check_rest_quiet sz others (after_with w)) as (Hfs & Hsf & Hout).
    destruct (check_rest sz others (after_with w)) as [[[]|e] w2];
      simpl in *; intros Hh.
    + exists w2. split; [|split; [exact Hfs|split; [exact Hsf|exact Hh]]].
      right. exists sz. split; [reflexivity|exact Hout].
    + exists w2. split; [|split; [exact Hfs|split; [exact Hsf|exact Hh]]].
      left. reflexivity.
    + eexists. split; [left; reflexivity|]. simpl.
      split; [exact Hfs|split; [exact Hsf|exact Hh]].
  - refused Hp. simpl. intros Hh. eexists.
    split; [left; reflexivity|]. simpl. split; [|split]; reflexivity.
Qed.

Lemma check_image_sizes_footprint_witness :
  ∃ w',
    (check_image_sizes [frame_01; frame_03; missing_frame] sample_world
     = (Return (false, None), w') ∨
     ∃ sz, check_image_sizes [frame_01; frame_03; missing_frame] sample_world
           = (Return (true, Some sz), w') ∧
           stdout w' = stdout sample_world) ∧
    fs w' = fs sample_world ∧ save_faults w' = save_faults sample_world ∧
    open_handles w' = open_handles sample_world.
Proof.
  apply (check_image_sizes_footprint sample_world
           [frame_01; frame_03; missing_frame]).
  constructor.
Defined.

(** * Further properties of the compositor *)

Lemma paste_row_truncated result_img width x_offset images w :
  (∃ img, img ∈ images ∧ im_data img = None) →
  paste_row result_img width x_offset images w
  = (Raise (OSError "image file is truncated"), w).
Proof.
  intros (bad & Hin & Hbad). revert result_img x_offset.
  induction images as [|img rest IH]; intros c x; [inversion Hin|].
  simpl. unfold bind, paste. destruct (im_data img) as [pixels|] eqn:Hd.
  - simpl. apply IH. apply elem_of_cons in Hin as [->|Hin]; [congruence|exact Hin].
  - reflexivity.
Qed.

Lemma paste_column_truncated result_img height y_offset images w :
  (∃ img, img ∈ images ∧ im_data img = None) →
  paste_column result_img height y_offset images w
  = (Raise (OSError "image file is truncated"), w).
Proof.
  intros (bad & Hin & Hbad). revert result_img y_offset.
  induction images as [|img rest IH]; intros c y; [inversion Hin|].
  simpl. unfold bind, paste. destruct (im_data img) as [pixels|] eqn:Hd.
  - simpl. apply IH. apply elem_of_cons in Hin as [->|Hin]; [congruence|exact Hin].
  - reflexivity.
Qed.

Lemma images_from_truncated h (files : list (size * option raster)) sz :
  (sz, None) ∈ files →
  ∃ img, img ∈ images_from h files ∧ im_data img = None.
Proof.
  revert h. induction files as [|f rest IH]; intros h Hin; [inversion Hin|].
  apply elem_of_cons in Hin as [<-|Hin].
  - exists (Image h sz None). split; [left|reflexivity].
  - destruct (IH (S h) Hin) as (img & Himg & Hd).
    exists img. split; [right; exact Himg|exact Hd].
Qed.

Lemma check_image_sizes_all_same file_paths w sz :
  file_paths ≠ [] →
  Forall (λ p, ∃ data, opens_as w p sz data) file_paths →
  (check_image_sizes file_paths w).1 = Return (true, Some sz).
Proof.
  intros Hne Hall. destruct file_paths as [|first others]; [contradiction|].
  apply Forall_cons in Hall as [[data Hfirst] Hothers].
  simpl. unfold try_except, bind. opened Hfirst.
  pose proof (check_rest_all_same sz others (after_with w) Hothers) as Hrest.
  destruct (check_rest sz others (after_with w)) as [r w2].
  simpl in Hrest. subst r. reflexivity.
Qed.

Lemma compose_truncated images direction w :
  match images with
  | [] => False
  | first :: _ => 0 ≤ (im_size first).1 ∧ 0 ≤ (im_size first).2
  end →
  (∃ img, img ∈ images ∧ im_data img = None) →
  compose images direction w = (Raise (OSError "image file is truncated"), w).
Proof.
  intros Hpos Hbad. unfold compose.
  destruct images as [|first rest]; [contradiction|].
  destruct (im_size first) as [width height]. simpl in Hpos.
  set (images := first :: rest) in *. clearbody images.
  destruct (String.eqb direction "horizontal"); unfold bind, Image_new; simpl.
  - replace ((width * Z.of_nat (length images) <? 0) || (height <? 0))
      with false by (symmetry; apply orb_false_intro; apply Z.ltb_ge; nia).
    simpl. apply paste_row_truncated. exact Hbad.
  - replace ((width <? 0) || (height * Z.of_nat (length images) <? 0))
      with false by (symmetry; apply orb_false_intro; apply Z.ltb_ge; nia).
    simpl. apply paste_column_truncated. exact Hbad.
Qed.

Lemma concatenate_images_truncated (w : world) (file_paths : list string)
    (files : list (size * option raster)) (sz : size)
    (direction output_path : string) :
  Forall2 (λ p f, opens_as w p f.1 f.2) file_paths files →
  Forall (λ f : size * option raster, f.1 = sz) files →
  (sz, None) ∈ files →
  0 ≤ sz.1 → 0 ≤ sz.2 →
  concatenate_images file_paths direction output_path w
  = (Return false,
     World (fs w) (save_faults w)
           (rev (seq (next_handle w) (length files)) ++ open_handles w)
           (next_handle w + length files)
           (stdout w ++ [concat_error_prefix +:+ "image file is truncated"])).
Proof.
  intros Hall Hsz Hbad Hw Hh.
  destruct file_paths as [|p rest].
  { apply Forall2_nil_inv_l in Hall as ->. inversion Hbad. }
  unfold concatenate_images, try_except. unfold bind at 1.
  rewrite (open_images_ok [] _ files) by exact Hall. simpl app.
  unfold bind at 1. rewrite compose_truncated.
  - reflexivity.
  - destruct files as [|f files']; [inversion Hbad|]. simpl.
    apply Forall_cons in Hsz as [-> _]. split; assumption.
  - eapply images_from_truncated. exact Hbad.
Qed.

(** X3: validation does not look at the pixel data.  When every fragment
    opens with the size [sz] but the data of one is truncated, the
    validator accepts the list, and the compositor then fails at the paste:
    it returns [False] after printing the error and writes nothing; the
    image of the truncated fragment and those of the fragments after it,
    which no paste has read, are left open. *)
Theorem validated_but_truncated (w : world) (file_paths : list string)
    (files : list (size * option raster)) (sz : size)
    (direction output_path : string) :
  Forall2 (λ p f, opens_as w p f.1 f.2) file_paths files →
  Forall (λ f : size * option raster, f.1 = sz) files →
  (sz, None) ∈ files →
  0 ≤ sz.1 → 0 ≤ sz.2 →
  (check_image_sizes file_paths w).1 = Return (true, Some sz) ∧
  ∃ w',
    concatenate_images file_paths direction output_path w = (Return false, w') ∧
    fs w' = fs w ∧
    stdout w'
    = stdout w ++ [concat_error_prefix +:+ "image file is truncated"] ∧
    ∀ i j : nat, files !! i = Some (sz, None) →
      (i ≤ j < length files)%nat →
      (next_handle w + j)%nat ∈ open_handles w'.
Proof.
  intros Hall Hsz Hbad Hw Hh.
  assert (file_paths ≠ []) as Hne.
  { intros ->. apply Forall2_nil_inv_l in Hall as ->. inversion Hbad. }
  split.
  - apply check_image_sizes_all_same; [exact Hne|].
    clear Hbad Hne. induction Hall as [|p f ps fs' Hp _ IH]; constructor.
    + apply Forall_cons in Hsz as [<- _]. exists f.2. exact Hp.
    + apply IH. apply Forall_cons in Hsz as [_ Hsz]. exact Hsz.
  - eexists. split; [|split; [|split]].
    + exact (concatenate_images_truncated w file_paths files sz direction
               output_path Hall Hsz Hbad Hw Hh).
    + reflexivity.
    + reflexivity.
    + intros i j _ Hj. cbn [open_handles].
      apply elem_of_app. left.
      rewrite list_elem_of_In, <- in_rev, <- list_elem_of_In.
      apply elem_of_seq. lia.
Qed.

Lemma validated_but_truncated_witness :
  (check_image_sizes [frame_01; torn_frame] torn_world).1
  = Return (true, Some (100, 50)) ∧
  ∃ w',
    concatenate_images [frame_01; torn_frame] "vertical" out_png torn_world
    = (Return false, w') ∧
    fs w' = fs torn_world ∧
    stdout w'
    = stdout torn_world ++ [concat_error_prefix +:+ "image file is truncated"] ∧
    ∀ i j : nat,
      [((100, 50), Some (tint 1)); ((100, 50), None)] !! i
      = Some ((100, 50), None) →
      (i ≤ j < 2)%nat →
      (next_handle torn_world + j)%nat ∈ open_handles w'.
Proof.
  apply (validated_but_truncated torn_world [frame_01; torn_frame]
           [((100, 50), Some (tint 1)); ((100, 50), None)] (100, 50)
           "vertical" out_png).
  - repeat constructor.
  - repeat constructor.
  - right. left.
  - simpl. lia.
  - simpl. lia.
Defined.

Lemma concatenate_images_open_error_witness :
  concatenate_images ([frame_01; frame_02] ++ missing_frame :: [frame_03])
                     "horizontal" out_png sample_world
  = (Return false,
     World (fs sample_world) (save_faults sample_world)
           (rev (seq (next_handle sample_world) 2)
            ++ open_handles sample_world)
           (next_handle sample_world + 2)
           (stdout sample_world
            ++ [concat_error_prefix
                +:+ str_exn (FileNotFoundError missing_frame)])).
Proof.
  apply (concatenate_images_open_error [frame_01; frame_02] missing_frame
           [frame_03] (FileNotFoundError missing_frame) "horizontal" out_png
           sample_world
           [((100, 50), Some (tint 1)); ((100, 50), Some (tint 2))]).
  - repeat constructor.
  - reflexivity.
Defined.

(** X5: on its success path the compositor changes the world in one place:
    the output path holds the composed image, whatever it held before;
    every other file is as it was, nothing is printed, no fault is
    consumed and no handle stays open. *)
Theorem concatenate_images_success_footprint (w : world)
    (file_paths : list string) (direction output_path : string)
    (frags : list (size * raster)) :
  handles_wf w →
  Forall2 (readable w) file_paths frags →
  match frags with
  | [] => False
  | first :: _ => 0 ≤ first.1.1 ∧ 0 ≤ first.1.2
  end →
  save_faults w !! output_path = None →
  ∃ w',
    concatenate_images file_paths direction output_path w = (Return true, w') ∧
    fs w' !! output_path
    = Some (ImageFile (c_size (composed direction frags))
                      (Some (render (composed direction frags)))) ∧
    (∀ q, q ≠ output_path → fs w' !! q = fs w !! q) ∧
    save_faults w' = save_faults w ∧
    open_handles w' = open_handles w ∧
    stdout w' = stdout w.
Proof.
  intros Hwf Hall Hpos Hsave.
  rewrite (concatenate_images_ok _ _ _ _ _ Hall Hpos Hsave).
  eexists. split; [reflexivity|]. simpl. split; [apply lookup_insert_eq|].
  split; [|split; [reflexivity|split; [|reflexivity]]].
  - intros q Hq. apply lookup_insert_ne. congruence.
  - rewrite <- (length_map (λ f : size * raster, (f.1, Some f.2)) frags).
    apply close_all_opened. exact Hwf.
Qed.

Lemma concatenate_images_success_footprint_witness :
  ∃ w',
    concatenate_images [frame_01; frame_02] "vertical" frame_03 sample_world
    = (Return true, w') ∧
    fs w' !! frame_03
    = Some (ImageFile
              (c_size (composed "vertical"
                         [((100, 50), tint 1); ((100, 50), tint 2)]))
              (Some (render (composed "vertical"
                               [((100, 50), tint 1); ((100, 50), tint 2)])))) ∧
    (∀ q, q ≠ frame_03 → fs w' !! q = fs sample_world !! q) ∧
    save_faults w' = save_faults sample_world ∧
    open_handles w' = open_handles sample_world ∧
    stdout w' = stdout sample_world.
Proof.
  apply (concatenate_images_success_footprint sample_world
           [frame_01; frame_02] "vertical" frame_03
           [((100, 50), tint 1); ((100, 50), tint 2)]).
  - constructor.
  - repeat constructor.
  - simpl. lia.
  - reflexivity.
Defined.

(** X6: composing a single fragment copies it: in either direction the
    output has the size of the fragment and shows its pixels. *)
Theorem single_fragment_is_copied (w : world) (path : string)
    (f : size * raster) (direction output_path : string) :
  readable w path f →
  0 ≤ f.1.1 → 0 ≤ f.1.2 →
  save_faults w !! output_path = None →
  ∃ w' pixels,
    concatenate_images [path] direction output_path w = (Return true, w') ∧
    fs w' !! output_path = Some (ImageFile f.1 (Some pixels)) ∧
    ∀ x y, 0 ≤ x < f.1.1 → 0 ≤ y < f.1.2 → pixels x y = f.2 x y.
Proof.
  intros Hp Hw Hh Hsave.
  assert (Forall2 (readable w) [path] [f]) as Hall by (repeat constructor; exact Hp).
  rewrite (concatenate_images_ok _ direction _ _ _ Hall (conj Hw Hh) Hsave).
  eexists _, (render (composed direction [f])).
  split; [reflexivity|]. simpl fs. rewrite lookup_insert_eq.
  destruct f as [[width height] px]. cbn [fst snd] in Hw, Hh |- *.
  assert (Forall (λ g : size * raster, g.1 = (width, height))
                 [((width, height), px)]) as Hsz by (repeat constructor).
  destruct (String.eqb direction "horizontal") eqn:Hdir.
  - apply String.eqb_eq in Hdir. subst direction. split.
    + unfold composed. simpl. rewrite Z.mul_1_r. reflexivity.
    + intros x y Hx Hy.
      etrans; [|exact (render_row width height _ 0 ((width, height), px)
                          x y Hsz eq_refl Hx Hy)].
      f_equal; lia.
  - split.
    + unfold composed. cbv beta iota. cbn [fst snd]. rewrite Hdir. simpl.
      rewrite Z.mul_1_r. reflexivity.
    + intros x y Hx Hy.
      etrans; [|exact (render_column direction width height _ 0
                          ((width, height), px) x y Hdir Hsz eq_refl Hx Hy)].
      f_equal; lia.
Qed.

Lemma single_fragment_is_copied_witness :
  ∃ w' pixels,
    concatenate_images [frame_03] "horizontal" out_png sample_world
    = (Return true, w') ∧
    fs w' !! out_png = Some (ImageFile (80, 50) (Some pixels)) ∧
    ∀ x y, 0 ≤ x < 80 → 0 ≤ y < 50 → pixels x y = tint 3 x y.
Proof.
  apply (single_fragment_is_copied sample_world frame_03 ((80, 50), tint 3)
           "horizontal" out_png).
  - reflexivity.
  - simpl. lia.
  - simpl. lia.
  - reflexivity.
Defined.

Lemma readable_after_write (w w1 : world) (output_path : string) (written : file)
    (file_paths : list string) (frags : list (size * raster)) :
  fs w1 = <[output_path := written]> (fs w) →
  output_path ∉ file_paths →
  Forall2 (readable w) file_paths frags →
  Forall2 (readable w1) file_paths frags.
Proof.
  intros Hfs Hfresh Hall. induction Hall as [|p f ps fs' Hp _ IH]; constructor.
  - unfold readable, opens_as in *. rewrite Hfs.
    rewrite lookup_insert_ne; [exact Hp|].
    intros ->. apply Hfresh. left.
  - apply IH. intros Hin. apply Hfresh. right. exact Hin.
Qed.

(** X7: running the compositor a second time on the same fragments and the
    same output path, which is none of the fragments, succeeds again and
    leaves the files as the first run left them. *)
Theorem concatenate_images_rerun (w : world) (file_paths : list string)
    (direction output_path : string) (frags : list (size * raster)) :
  Forall2 (readable w) file_paths frags →
  match frags with
  | [] => False
  | first :: _ => 0 ≤ first.1.1 ∧ 0 ≤ first.1.2
  end →
  save_faults w !! output_path = None →
  output_path ∉ file_paths →
  let first_run := concatenate_images file_paths direction output_path w in
  let second_run :=
    concatenate_images file_paths direction output_path first_run.2 in
  first_run.1 = Return true ∧ second_run.1 = Return true ∧
  fs second_run.2 = fs first_run.2.
Proof.
  intros Hall Hpos Hsave Hfresh first_run second_run.
  subst second_run first_run.
  rewrite (concatenate_images_ok _ _ _ _ _ Hall Hpos Hsave). simpl.
  match goal with
  | |- context [concatenate_images _ _ _ ?after] => set (w1 := after)
  end.
  assert (Forall2 (readable w1) file_paths frags) as Hall1
    by (eapply readable_after_write; [reflexivity|exact Hfresh|exact Hall]).
  rewrite (concatenate_images_ok _ _ _ _ _ Hall1 Hpos Hsave). simpl.
  split; [reflexivity|]. split; [reflexivity|].
  apply insert_insert_eq.
Qed.

Lemma concatenate_images_rerun_witness :
  let first_run :=
    concatenate_images [frame_01; frame_02] "vertical" out_png sample_world in
  let second_run :=
    concatenate_images [frame_01; frame_02] "vertical" out_png first_run.2 in
  first_run.1 = Return true ∧ second_run.1 = Return true ∧
  fs second_run.2 = fs first_run.2.
Proof.
  apply (concatenate_images_rerun sample_world [frame_01; frame_02]
           "vertical" out_png [((100, 50), tint 1); ((100, 50), tint 2)]).
  - repeat constructor.
  - simpl. lia.
  - reflexivity.
  - intros Hin. apply list_elem_of_In in Hin. simpl in Hin.
    destruct Hin as [H|[H|[]]]; discriminate H.
Defined.

(** * Further properties of the discovery *)

Lemma fnmatch_star_step pat name :
  fnmatch (String "*" pat) name
  = fnmatch pat name ||
    match name with
    | EmptyString => false
    | String _ name' => fnmatch (String "*" pat) name'
    end.
Proof. destruct name; reflexivity. Qed.

(** A star matches any run of characters, the empty one included. *)
Lemma fnmatch_star pat name :
  fnmatch (String "*" pat) name = true
  ↔ ∃ a b, name = a +:+ b ∧ fnmatch pat b = true.
Proof.
  induction name as [|c name IH]; rewrite fnmatch_star_step.
  - rewrite orb_false_r. split.
    + intros H. exists "", "". split; [reflexivity|exact H].
    + intros (a & b & Hab & H). destruct a; [|discriminate].
      change ("" +:+ b) with b in Hab. subst b. exact H.
  - rewrite orb_true_iff, IH. split.
    + intros [H|(a & b & -> & H)].
      * exists "", (String c name). split; [reflexivity|exact H].
      * exists (String c a), b. split; [reflexivity|exact H].
    + intros (a & b & Hab & H). destruct a as [|c' a].
      * change ("" +:+ b) with b in Hab. subst b. left. exact H.
      * rewrite append_cons in Hab. injection Hab as -> ->. right. exists a, b. split; [reflexivity|exact H].
Qed.

Lemma fnmatch_dot_png name : fnmatch ".png" name = true ↔ name = ".png".
Proof.
  split; [|intros ->; reflexivity].
  destruct name as [|c1 [|c2 [|c3 [|c4 rest]]]];
    try (simpl; rewrite ?andb_true_iff; intuition discriminate).
  change (fnmatch ".png" (String c1 (String c2 (String c3 (String c4 rest)))))
    with ((Ascii.eqb "." c1) && ((Ascii.eqb "p" c2) && ((Ascii.eqb "n" c3)
          && ((Ascii.eqb "g" c4) && String.eqb rest "")))).
  rewrite !andb_true_iff, !Ascii.eqb_eq, String.eqb_eq.
  intros (<- & <- & <- & <- & ->). reflexivity.
Qed.

Lemma fnmatch_segment name :
  fnmatch "segment_*.png" name = true
  ↔ ∃ mid, name = "segment_" +:+ mid +:+ ".png".
Proof.
  split.
  - destruct name as [|c1 [|c2 [|c3 [|c4 [|c5 [|c6 [|c7 [|c8 rest]]]]]]]];
      try (simpl; rewrite ?andb_true_iff; intuition discriminate).
    change (fnmatch "segment_*.png"
              (String c1 (String c2 (String c3 (String c4 (String c5
                 (String c6 (String c7 (String c8 rest)))))))))
      with ((Ascii.eqb "s" c1) && ((Ascii.eqb "e" c2) && ((Ascii.eqb "g" c3)
            && ((Ascii.eqb "m" c4) && ((Ascii.eqb "e" c5)
            && ((Ascii.eqb "n" c6) && ((Ascii.eqb "t" c7)
            && ((Ascii.eqb "_" c8) && fnmatch "*.png" rest)))))))).
    rewrite !andb_true_iff, !Ascii.eqb_eq, fnmatch_star.
    intros (<- & <- & <- & <- & <- & <- & <- & <- & a & b & -> & Hb).
    apply fnmatch_dot_png in Hb. subst b. exists a. reflexivity.
  - intros [mid ->].
    change (fnmatch "segment_*.png" ("segment_" +:+ mid +:+ ".png"))
      with (fnmatch "*.png" (mid +:+ ".png")).
    apply fnmatch_star. exists mid, ".png". split; reflexivity.
Qed.

Lemma has_slash_append (a b : string) :
  has_slash (a +:+ b) = has_slash a || has_slash b.
Proof.
  induction a as [|c a IH]; [reflexivity|].
  rewrite append_cons. simpl. rewrite IH, orb_assoc. reflexivity.
Qed.

Lemma split_path_no_slash (b : string) :
  has_slash b = false → split_path b = ("", b).
Proof.
  destruct b as [|c b]; [reflexivity|]. simpl.
  intros H. apply orb_false_elim in H as [Hc Hb]. rewrite Hb, Hc. reflexivity.
Qed.

Lemma split_path_after_slash (a b : string) :
  has_slash b = false →
  split_path (a +:+ "/" +:+ b) = (a +:+ "/", b).
Proof.
  intros Hb. induction a as [|c a IH].
  - change ("" +:+ "/" +:+ b) with (String "/" b). simpl. rewrite Hb. reflexivity.
  - rewrite append_cons. simpl split_path.
    rewrite has_slash_append. simpl has_slash. rewrite orb_true_r.
    rewrite IH. reflexivity.
Qed.

Lemma split_path_name_no_slash (p : string) :
  has_slash (split_path p).2 = false.
Proof.
  induction p as [|c rest IH]; [reflexivity|]. simpl split_path.
  destruct (has_slash rest) eqn:Hrest.
  - destruct (split_path rest) as [d b]. exact IH.
  - destruct (Ascii.eqb c "/") eqn:Hc; simpl.
    + exact Hrest.
    + rewrite Hc, Hrest. reflexivity.
Qed.

Lemma rev_app_append (a b acc : string) :
  String.rev_app (a +:+ b) acc = String.rev_app b (String.rev_app a acc).
Proof.
  revert acc. induction a as [|c a IH]; intros acc; [reflexivity|].
  rewrite append_cons. simpl. apply IH.
Qed.

Lemma append_assoc (a b c : string) : (a +:+ b) +:+ c = a +:+ (b +:+ c).
Proof.
  induction a as [|x a IH]; [reflexivity|].
  rewrite !append_cons, IH. reflexivity.
Qed.

Lemma rev_app_acc (a acc : string) :
  String.rev_app a acc = String.rev_app a "" +:+ acc.
Proof.
  revert acc. induction a as [|c a IH]; intros acc; [reflexivity|].
  simpl. rewrite (IH (String c acc)), (IH (String c "")).
  rewrite append_assoc. reflexivity.
Qed.

Lemma rev_rev (a : string) : String.rev (String.rev a) = a.
Proof.
  unfold String.rev. induction a as [|c a IH]; [reflexivity|].
  simpl. rewrite (rev_app_acc a (String c "")), rev_app_append, IH.
  reflexivity.
Qed.

Lemma ends_with_slash_iff (a : string) :
  ends_with_slash a = true ↔ ∃ a', a = a' +:+ "/".
Proof.
  unfold ends_with_slash. split.
  - destruct (String.rev a) as [|c r] eqn:Hrev; [discriminate|].
    intros Hc. apply Ascii.eqb_eq in Hc. subst c.
    exists (String.rev r). rewrite <- (rev_rev a), Hrev.
    unfold String.rev. simpl. apply rev_app_acc.
  - intros [a' ->]. unfold String.rev. rewrite rev_app_append. reflexivity.
Qed.

Lemma no_slash_no_leading_slash (name : string) :
  has_slash name = false → starts_with_slash name = false.
Proof.
  destruct name as [|c name]; [reflexivity|]. simpl.
  intros H. apply orb_false_elim in H as [Hc _]. exact Hc.
Qed.

Lemma os_path_join_prefix (folder name : string) :
  has_slash name = false →
  os_path_join folder name = folder_prefix folder +:+ name.
Proof.
  intros Hname. unfold os_path_join, folder_prefix.
  rewrite (no_slash_no_leading_slash _ Hname).
  destruct (String.eqb folder "" || ends_with_slash folder); [reflexivity|].
  rewrite append_assoc. reflexivity.
Qed.

Lemma split_path_prefix_name (folder name : string) :
  has_slash name = false →
  split_path (folder_prefix folder +:+ name) = (folder_prefix folder, name).
Proof.
  intros Hname. unfold folder_prefix.
  destruct (String.eqb folder "") eqn:Hempty.
  - apply String.eqb_eq in Hempty. subst folder. simpl.
    apply split_path_no_slash. exact Hname.
  - simpl. destruct (ends_with_slash folder) eqn:Hends.
    + apply ends_with_slash_iff in Hends as [a ->].
      rewrite append_assoc. apply split_path_after_slash. exact Hname.
    + rewrite append_assoc. apply split_path_after_slash. exact Hname.
Qed.

Lemma os_path_split_join (folder pat : string) :
  has_slash pat = false →
  os_path_dirname (os_path_join folder pat) = glob_dirname folder ∧
  os_path_basename (os_path_join folder pat) = pat.
Proof.
  intros Hpat. unfold glob_dirname, os_path_dirname, os_path_basename.
  rewrite (os_path_join_prefix _ _ Hpat), (split_path_prefix_name _ _ Hpat).
  rewrite (os_path_join_prefix folder "*" eq_refl).
  rewrite (split_path_prefix_name folder "*" eq_refl).
  split; reflexivity.
Qed.

Lemma glob_glob_member (folder pat p : string) (w : world) :
  has_slash pat = false →
  p ∈ glob_glob (os_path_join folder pat) w
  ↔ is_Some (fs w !! p) ∧
    (split_path p).1 = folder_prefix (glob_dirname folder) ∧
    fnmatch pat (split_path p).2 = true.
Proof.
  intros Hpat. unfold glob_glob. cbv zeta.
  destruct (os_path_split_join folder pat Hpat) as [-> ->].
  rewrite list_elem_of_filter, list_elem_of_In, in_map_iff. split.
  - intros [[Hdir Hmatch] ([k v] & <- & Hin)].
    apply list_elem_of_In, elem_of_map_to_list in Hin.
    simpl. split; [eexists; exact Hin|]. split; assumption.
  - intros ([v Hv] & Hdir & Hmatch). split; [split; assumption|].
    exists (p, v). split; [reflexivity|].
    apply list_elem_of_In, elem_of_map_to_list. exact Hv.
Qed.

(** X8: for a folder whose path has no wildcard, the fragments are exactly
    the entries directly in it (files, and also directories and links)
    whose name is [segment_], any characters, [.png]; each is returned as
    the folder, without its final slashes, joined to the name. *)
Theorem find_segment_files_member (w : world) (folder_path p : string) :
  has_magic folder_path = false →
  p ∈ find_segment_files folder_path w
  ↔ ∃ mid, has_slash mid = false ∧
           p = os_path_join (glob_dirname folder_path)
                            ("segment_" +:+ mid +:+ ".png") ∧
           is_Some (fs w !! p).
Proof.
  intros _. unfold find_segment_files, sorted. cbv zeta.
  rewrite merge_sort_Permutation, glob_glob_member by reflexivity.
  rewrite fnmatch_segment. split.
  - intros (Hsome & Hdir & mid & Hname).
    pose proof (split_path_name_no_slash p) as Hno.
    rewrite Hname in Hno.
    exists mid. split; [|split; [|exact Hsome]].
    + rewrite !has_slash_append in Hno.
      apply orb_false_elim in Hno as [_ Hno].
      apply orb_false_elim in Hno as [Hno _]. exact Hno.
    + rewrite os_path_join_prefix by exact Hno.
      rewrite <- Hdir, <- Hname. symmetry. apply split_path_join.
  - intros (mid & Hmid & -> & Hsome).
    assert (has_slash ("segment_" +:+ mid +:+ ".png") = false) as Hno
      by (rewrite !has_slash_append, Hmid; reflexivity).
    rewrite os_path_join_prefix in * by exact Hno.
    rewrite split_path_prefix_name by exact Hno.
    split; [exact Hsome|]. split; [reflexivity|]. exists mid. reflexivity.
Qed.

(** The folder typed with slashes at its end: the fragments come back
    without them. *)
Lemma find_segment_files_member_witness :
  tile_10 ∈ find_segment_files "tiles//" sample_world
  ↔ ∃ mid, has_slash mid = false ∧
           tile_10 = os_path_join (glob_dirname "tiles//")
                                  ("segment_" +:+ mid +:+ ".png") ∧
           is_Some (fs sample_world !! tile_10).
Proof.
  apply (find_segment_files_member sample_world "tiles//" tile_10).
  reflexivity.
Defined.

Example find_segment_files_final_slashes :
  find_segment_files "tiles//" sample_world = [tile_10; tile_2].
Proof. vm_compute. reflexivity. Qed.

(** A directory and a link to a missing file that are named like fragments
    are listed with the fragments, and the validator stops at the first. *)
Example find_segment_files_scans :
  find_segment_files "scans" scans_world
  = ["scans/segment_01.png"; "scans/segment_02.png"].
Proof. vm_compute. reflexivity. Qed.

Example check_image_sizes_scans :
  check_image_sizes (find_segment_files "scans" scans_world) scans_world
  = (Return (false, None),
     World scans_fs ∅ [] 0
           [check_error_prefix
            +:+ "[Errno 21] Is a directory: 'scans/segment_01.png'"]).
Proof. vm_compute. reflexivity. Qed.

(** X9: no fragment is listed twice, so none is pasted twice. *)
Theorem find_segment_files_NoDup (w : world) (folder_path : string) :
  NoDup (find_segment_files folder_path w).
Proof.
  unfold find_segment_files, sorted. cbv zeta.
  rewrite merge_sort_Permutation. unfold glob_glob.
  destruct (split_path (os_path_join folder_path "segment_*.png")) as [dir pat].
  apply NoDup_filter.
  change (map fst (map_to_list (fs w))) with ((map_to_list (fs w)).*1).
  apply NoDup_fst_map_to_list.
Qed.

(** * Further properties of the output file name *)

Lemma parse_decimal_str (n : N) : parse_decimal (str n) = Some n.
Proof.
  unfold parse_decimal, str. rewrite NilEmpty.usu. simpl.
  rewrite DecimalN.Unsigned.of_to. reflexivity.
Qed.

Lemma parse_decimal_zero (s : string) :
  parse_decimal (String "0" s) = parse_decimal s.
Proof.
  unfold parse_decimal. simpl.
  destruct (NilEmpty.uint_of_string s); reflexivity.
Qed.

Lemma parse_decimal_pad2 (n : N) : parse_decimal (pad2 n) = Some n.
Proof.
  unfold pad2. destruct (n <? 10)%N.
  - change ("0" +:+ str n) with (String "0" (str n)).
    rewrite parse_decimal_zero. apply parse_decimal_str.
  - apply parse_decimal_str.
Qed.

Lemma parse_decimal_pad4 (n : N) : parse_decimal (pad4 n) = Some n.
Proof.
  unfold pad4. destruct (n <? 10)%N; [|destruct (n <? 100)%N;
                                        [|destruct (n <? 1000)%N]].
  - change ("000" +:+ str n) with (String "0" (String "0" (String "0" (str n)))).
    rewrite !parse_decimal_zero. apply parse_decimal_str.
  - change ("00" +:+ str n) with (String "0" (String "0" (str n))).
    rewrite !parse_decimal_zero. apply parse_decimal_str.
  - change ("0" +:+ str n) with (String "0" (str n)).
    rewrite parse_decimal_zero. apply parse_decimal_str.
  - apply parse_decimal_str.
Qed.

Lemma pad2_inj (n m : N) : pad2 n = pad2 m → n = m.
Proof.
  intros H. apply (f_equal parse_decimal) in H.
  rewrite !parse_decimal_pad2 in H. injection H as H. exact H.
Qed.

Lemma pad4_inj (n m : N) : pad4 n = pad4 m → n = m.
Proof.
  intros H. apply (f_equal parse_decimal) in H.
  rewrite !parse_decimal_pad4 in H. injection H as H. exact H.
Qed.

Lemma below_in_seq (P : N → bool) (lo len n : N) :
  forallb (λ k, P (N.of_nat k)) (seq (N.to_nat lo) (N.to_nat len)) = true →
  (lo ≤ n < lo + len)%N →
  P n = true.
Proof.
  intros Hall Hn. rewrite forallb_forall in Hall.
  rewrite <- (N2Nat.id n). apply Hall. apply in_seq. lia.
Qed.

Lemma pad2_length (n : N) : (n < 100)%N → String.length (pad2 n) = 2%nat.
Proof.
  intros Hn. apply Nat.eqb_eq.
  apply (below_in_seq (λ k, Nat.eqb (String.length (pad2 k)) 2) 0 100).
  - vm_compute. reflexivity.
  - lia.
Qed.

Lemma pad4_length (n : N) : (n < 10000)%N → String.length (pad4 n) = 4%nat.
Proof.
  intros Hn. apply Nat.eqb_eq.
  apply (below_in_seq (λ k, Nat.eqb (String.length (pad4 k)) 4) 0 10000).
  - vm_compute. reflexivity.
  - lia.
Qed.

Lemma suffix_length (r : N) :
  randint_100_999 r → String.length (str r) = 3%nat.
Proof.
  intros Hr. apply Nat.eqb_eq.
  apply (below_in_seq (λ k, Nat.eqb (String.length (str k)) 3) 100 900).
  - vm_compute. reflexivity.
  - unfold randint_100_999 in Hr. lia.
Qed.

Lemma length_append (a b : string) :
  String.length (a +:+ b) = (String.length a + String.length b)%nat.
Proof.
  induction a as [|c a IH]; [reflexivity|].
  rewrite append_cons. simpl. rewrite IH. reflexivity.
Qed.

Lemma append_inj_length (a a' b b' : string) :
  String.length a = String.length a' →
  a +:+ b = a' +:+ b' → a = a' ∧ b = b'.
Proof.
  revert a'. induction a as [|c a IH]; intros [|c' a'] Hlen H;
    try discriminate.
  - split; [reflexivity|exact H].
  - rewrite !append_cons in H. injection H as -> H.
    injection Hlen as Hlen. destruct (IH a' Hlen H) as [-> ->].
    split; reflexivity.
Qed.

Lemma strftime_length (t : datetime) :
  is_datetime t → String.length (strftime t) = 15%nat.
Proof.
  intros (Hy & Hmo & Hd & Hh & Hmi & Hs & _). unfold strftime.
  rewrite !length_append, pad4_length, !pad2_length by lia. reflexivity.
Qed.

Lemma strftime_inj (a b : datetime) :
  is_datetime a → is_datetime b →
  strftime a = strftime b → same_second a b.
Proof.
  intros (Hy & Hmo & Hd & Hh & Hmi & Hs & _)
         (Hy' & Hmo' & Hd' & Hh' & Hmi' & Hs' & _) H.
  unfold strftime in H.
  apply append_inj_length in H as [Hyear H];
    [|rewrite !pad4_length by lia; reflexivity].
  apply append_inj_length in H as [Hmonth H];
    [|rewrite !pad2_length by lia; reflexivity].
  apply append_inj_length in H as [Hday H];
    [|rewrite !pad2_length by lia; reflexivity].
  apply append_inj_length in H as [_ H]; [|reflexivity].
  apply append_inj_length in H as [Hhour H];
    [|rewrite !pad2_length by lia; reflexivity].
  apply append_inj_length in H as [Hminute Hsecond];
    [|rewrite !pad2_length by lia; reflexivity].
  unfold same_second.
  repeat split;
    first [apply pad4_inj; assumption | apply pad2_inj; assumption].
Qed.

(** X10: the output paths of two runs are equal exactly when the runs
    start in the same second and draw the same suffix; runs of different
    seconds never collide. *)
Theorem output_path_collision_iff (now1 now2 : datetime) (r1 r2 : N) :
  is_datetime now1 → is_datetime now2 →
  output_path now1 r1 = output_path now2 r2
  ↔ same_second now1 now2 ∧ r1 = r2.
Proof.
  intros Hd1 Hd2. split.
  - unfold output_path, output_filename. intros H.
    apply String.app_inj in H.
    apply append_inj_length in H as [Hts H];
      [|rewrite !strftime_length by assumption; reflexivity].
    split; [apply strftime_inj; assumption|].
    apply String.app_inj in H. apply append_inj_suffix in H.
    apply str_inj. exact H.
  - intros [Hsame ->]. unfold output_path, output_filename.
    rewrite (strftime_same_second _ _ Hsame). reflexivity.
Qed.

Lemma output_path_collision_iff_witness :
  output_path morning 500 = output_path next_morning 500
  ↔ same_second morning next_morning ∧ 500%N = 500%N.
Proof.
  apply (output_path_collision_iff morning next_morning 500 500).
  - unfold is_datetime. simpl. lia.
  - unfold is_datetime. simpl. lia.
Defined.

Lemma digits_only_uint (d : Decimal.uint) :
  digits_only (NilEmpty.string_of_uint d) = true.
Proof.
  induction d as [|d IH|d IH|d IH|d IH|d IH|d IH|d IH|d IH|d IH|d IH];
    [reflexivity|..]; simpl NilEmpty.string_of_uint;
    simpl digits_only; rewrite IH; reflexivity.
Qed.

Lemma digits_only_append (a b : string) :
  digits_only (a +:+ b) = digits_only a && digits_only b.
Proof.
  induction a as [|c a IH]; [reflexivity|].
  rewrite append_cons. simpl. rewrite IH, andb_assoc. reflexivity.
Qed.

Lemma digits_only_str (n : N) : digits_only (str n) = true.
Proof. apply digits_only_uint. Qed.

Lemma digits_only_pad2 (n : N) : digits_only (pad2 n) = true.
Proof.
  unfold pad2. destruct (n <? 10)%N;
    rewrite ?digits_only_append, digits_only_str; reflexivity.
Qed.

Lemma digits_only_pad4 (n : N) : digits_only (pad4 n) = true.
Proof.
  unfold pad4.
  destruct (n <? 10)%N; [|destruct (n <? 100)%N; [|destruct (n <? 1000)%N]];
    rewrite ?digits_only_append, digits_only_str; reflexivity.
Qed.

Lemma digit_is_no_slash (c : ascii) :
  is_digit c = true → Ascii.eqb c "/" = false.
Proof.
  intros Hc. destruct (Ascii.eqb_spec c "/") as [->|]; [discriminate|reflexivity].
Qed.

Lemma digits_only_no_slash (s : string) :
  digits_only s = true → has_slash s = false.
Proof.
  induction s as [|c s IH]; [reflexivity|]. simpl.
  intros H. apply andb_true_iff in H as [Hc Hs].
  rewrite (digit_is_no_slash _ Hc), (IH Hs). reflexivity.
Qed.

(** X11: for a real date from the year 1000 on and a suffix drawn by
    [randint(100, 999)] the file name is eight digits, an underscore, six
    digits, an underscore, three digits and [.png]. *)
Theorem output_filename_shape (now : datetime) (r : N) :
  is_datetime now → (1000 ≤ year now)%N → randint_100_999 r →
  ∃ date time suffix,
    output_filename now r
    = date +:+ "_" +:+ time +:+ "_" +:+ suffix +:+ ".png" ∧
    (digits_only date = true ∧ String.length date = 8%nat) ∧
    (digits_only time = true ∧ String.length time = 6%nat) ∧
    (digits_only suffix = true ∧ String.length suffix = 3%nat).
Proof.
  intros (Hy & Hmo & Hd & Hh & Hmi & Hs & _) Hyear Hr.
  exists (pad4 (year now) +:+ pad2 (month now) +:+ pad2 (day now)),
         (pad2 (hour now) +:+ pad2 (minute now) +:+ pad2 (second now)),
         (str r).
  split; [|split; [|split]].
  - unfold output_filename, strftime. rewrite !append_assoc. reflexivity.
  - rewrite !digits_only_append, digits_only_pad4, !digits_only_pad2.
    rewrite !length_append, pad4_length, !pad2_length by lia.
    split; reflexivity.
  - rewrite !digits_only_append, !digits_only_pad2.
    rewrite !length_append, !pad2_length by lia.
    split; reflexivity.
  - split; [apply digits_only_str|apply suffix_length; exact Hr].
Qed.

Lemma output_filename_shape_witness :
  ∃ date time suffix,
    output_filename morning 500
    = date +:+ "_" +:+ time +:+ "_" +:+ suffix +:+ ".png" ∧
    (digits_only date = true ∧ String.length date = 8%nat) ∧
    (digits_only time = true ∧ String.length time = 6%nat) ∧
    (digits_only suffix = true ∧ String.length suffix = 3%nat).
Proof.
  apply (output_filename_shape morning 500).
  - unfold is_datetime. simpl. lia.
  - simpl. lia.
  - unfold randint_100_999. lia.
Defined.

Lemma output_filename_no_slash (now : datetime) (r : N) :
  has_slash (output_filename now r) = false.
Proof.
  unfold output_filename, strftime. rewrite !has_slash_append.
  rewrite (digits_only_no_slash _ (digits_only_pad4 _)).
  rewrite !(digits_only_no_slash _ (digits_only_pad2 _)).
  rewrite (digits_only_no_slash _ (digits_only_str _)). reflexivity.
Qed.

Lemma split_path_output_path (now : datetime) (r : N) :
  split_path (output_path now r) = ("concatenated/", output_filename now r).
Proof.
  unfold output_path.
  change ("concatenated/" +:+ output_filename now r)
    with ("concatenated" +:+ "/" +:+ output_filename now r).
  apply split_path_after_slash, output_filename_no_slash.
Qed.

Lemma str_not_empty (n : N) : str n ≠ "".
Proof.
  intros H. pose proof (parse_decimal_str n) as Hp. rewrite H in Hp.
  injection Hp as <-. discriminate H.
Qed.

Lemma pad4_starts_with_digit (n : N) :
  ∃ c rest, pad4 n = String c rest ∧ is_digit c = true.
Proof.
  pose proof (digits_only_pad4 n) as Hd.
  destruct (pad4 n) as [|c rest] eqn:Hp.
  - exfalso. unfold pad4 in Hp.
    destruct (n <? 10)%N; [discriminate|].
    destruct (n <? 100)%N; [discriminate|].
    destruct (n <? 1000)%N; [discriminate|].
    exact (str_not_empty n Hp).
  - exists c, rest. split; [reflexivity|].
    simpl in Hd. apply andb_true_iff in Hd as [Hc _]. exact Hc.
Qed.

(** X12: the files the tool writes are never taken for fragments: whatever
    the folder, the time and the suffix, the output path is not among the
    segment files found. *)
Theorem outputs_are_not_fragments (w : world) (folder_path : string)
    (now : datetime) (r : N) :
  output_path now r ∉ find_segment_files folder_path w.
Proof.
  unfold find_segment_files, sorted. cbv zeta.
  rewrite merge_sort_Permutation, glob_glob_member by reflexivity.
  intros (_ & _ & Hmatch).
  rewrite split_path_output_path in Hmatch. simpl in Hmatch.
  apply fnmatch_segment in Hmatch as [mid Hname].
  unfold output_filename, strftime in Hname.
  destruct (pad4_starts_with_digit (year now)) as (c & rest & Hp & Hc).
  rewrite Hp in Hname. rewrite !append_cons in Hname.
  injection Hname as -> _. discriminate Hc.
Qed.

(** * Properties of [find_image_folders] *)

Lemma scan_extensions_member root extensions w folders x :
  x ∈ scan_extensions root extensions w folders
  ↔ x ∈ folders ∨
    (x = root ∧ ∃ ext, ext ∈ extensions ∧
                       glob_glob_visible (os_path_join root ext) w ≠ []).
Proof.
  induction extensions as [|ext rest IH]; simpl.
  - split; [auto|]. intros [H|(_ & ext & Hin & _)]; [exact H|inversion Hin].
  - case_bool_decide as Hglob.
    + rewrite elem_of_union, elem_of_singleton. split.
      * intros [->|H]; [|auto]. right. split; [reflexivity|].
        exists ext. split; [left|exact Hglob].
      * intros [H|[-> _]]; auto.
    + rewrite IH. split.
      * intros [H|(-> & e & Hin & He)]; [auto|].
        right. split; [reflexivity|]. exists e. split; [right; exact Hin|exact He].
      * intros [H|(-> & e & Hin & He)]; [auto|].
        right. split; [reflexivity|]. exists e. split; [|exact He].
        apply elem_of_cons in Hin as [->|Hin]; [|exact Hin].
        exfalso. apply He. exact Hglob.
Qed.

Lemma walk_folders_member os_walk w folders x :
  x ∈ walk_folders os_walk w folders
  ↔ x ∈ folders ∨
    ((∃ dirs files, (x, dirs, files) ∈ os_walk) ∧
     str_contains "concatenated" x = false ∧ has_image w x).
Proof.
  revert folders. induction os_walk as [|[[root dirs] files] rest IH];
    intros folders; cbn [walk_folders].
  - split; [auto|]. intros [H|[(d & f & Hin) _]]; [exact H|inversion Hin].
  - destruct (str_contains "concatenated" root) eqn:Hroot; rewrite IH.
    + split.
      * intros [H|((d & f & Hin) & Hx & Himg)]; [auto|].
        right. split; [|split; assumption]. exists d, f. right. exact Hin.
      * intros [H|((d & f & Hin) & Hx & Himg)]; [auto|].
        right. split; [|split; assumption]. exists d, f.
        apply elem_of_cons in Hin as [Heq|Hin]; [|exact Hin].
        injection Heq as -> _ _. congruence.
    + rewrite scan_extensions_member. split.
      * intros [[H|[-> Himg]]|((d & f & Hin) & Hx & Himg)]; [auto| |].
        -- right. split; [|split; [exact Hroot|exact Himg]].
           exists dirs, files. left.
        -- right. split; [|split; assumption]. exists d, f. right. exact Hin.
      * intros [H|((d & f & Hin) & Hx & Himg)]; [auto|].
        apply elem_of_cons in Hin as [Heq|Hin].
        -- injection Heq as -> _ _. left. right. split; [reflexivity|exact Himg].
        -- right. split; [|split; assumption]. exists d, f. exact Hin.
Qed.

Lemma fnmatch_cons_plain c pat name :
  Ascii.eqb c "*" = false →
  fnmatch (String c pat) name
  = match name with
    | EmptyString => false
    | String d name' => (Ascii.eqb c "?" || Ascii.eqb c d) && fnmatch pat name'
    end.
Proof.
  destruct c as [[] [] [] [] [] [] [] []]; try discriminate; reflexivity.
Qed.

Lemma fnmatch_plain pat name :
  is_plain pat = true → fnmatch pat name = true ↔ name = pat.
Proof.
  revert name. induction pat as [|c pat IH]; intros name Hplain.
  - simpl. rewrite String.eqb_eq. reflexivity.
  - simpl in Hplain. apply andb_true_iff in Hplain as [Hc Hpat].
    apply andb_true_iff in Hc as [Hstar Hquest].
    apply negb_true_iff in Hstar, Hquest.
    rewrite fnmatch_cons_plain by exact Hstar. rewrite Hquest. simpl.
    destruct name as [|d name]; [split; discriminate|].
    rewrite andb_true_iff, Ascii.eqb_eq, (IH name Hpat). split.
    + intros [-> ->]. reflexivity.
    + intros [= -> ->]. split; reflexivity.
Qed.

Lemma fnmatch_suffix suffix name :
  is_plain suffix = true →
  fnmatch (String "*" suffix) name = true ↔ ∃ stem, name = stem +:+ suffix.
Proof.
  intros Hplain. rewrite fnmatch_star. split.
  - intros (a & b & -> & Hb). apply fnmatch_plain in Hb; [|exact Hplain].
    subst b. exists a. reflexivity.
  - intros [stem ->]. exists stem, suffix. split; [reflexivity|].
    apply fnmatch_plain; [exact Hplain|reflexivity].
Qed.

Lemma glob_glob_visible_member (folder pat p : string) (w : world) :
  has_slash pat = false → is_hidden pat = false →
  p ∈ glob_glob_visible (os_path_join folder pat) w
  ↔ is_Some (fs w !! p) ∧
    (split_path p).1 = folder_prefix (glob_dirname folder) ∧
    fnmatch pat (split_path p).2 = true ∧ is_hidden (split_path p).2 = false.
Proof.
  intros Hpat Hvis. unfold glob_glob_visible.
  rewrite list_elem_of_filter, (glob_glob_member _ _ _ _ Hpat).
  rewrite (os_path_join_prefix _ _ Hpat), (split_path_prefix_name _ _ Hpat).
  simpl. rewrite Hvis. split.
  - intros [[H|H] (Hsome & Hdir & Hmatch)]; [discriminate|]. auto.
  - intros (Hsome & Hdir & Hmatch & Hname). auto.
Qed.

(** For the pattern of [find_segment_files] the rule for hidden files
    changes nothing. *)
Lemma glob_glob_visible_segments folder w :
  glob_glob_visible (os_path_join folder "segment_*.png") w
  = glob_glob (os_path_join folder "segment_*.png") w.
Proof.
  unfold glob_glob_visible.
  set (l := glob_glob (os_path_join folder "segment_*.png") w).
  assert (Forall (λ p, is_hidden (split_path p).2 = false) l) as Hall.
  { apply Forall_forall. intros p Hp. subst l.
    apply glob_glob_member in Hp as (_ & _ & Hmatch); [|reflexivity].
    apply fnmatch_segment in Hmatch as [mid ->]. reflexivity. }
  clearbody l. induction Hall as [|p l Hp _ IH]; [reflexivity|].
  rewrite filter_cons_True by (right; exact Hp). rewrite IH. reflexivity.
Qed.

Lemma image_extensions_suffixes ext :
  ext ∈ image_extensions
  ↔ ∃ suffix, suffix ∈ image_suffixes ∧ ext = String "*" suffix.
Proof.
  change image_extensions with (String "*"%char <$> image_suffixes).
  rewrite list_elem_of_fmap. split; intros (s & H1 & H2); eauto.
Qed.

Lemma image_suffix_plain suffix :
  suffix ∈ image_suffixes → is_plain suffix = true ∧ has_slash suffix = false.
Proof.
  unfold image_suffixes. intros H.
  repeat (apply elem_of_cons in H as [->|H]; [split; reflexivity|]).
  inversion H.
Qed.

Lemma has_image_iff w root :
  has_image w root
  ↔ ∃ p stem suffix,
      suffix ∈ image_suffixes ∧ is_Some (fs w !! p) ∧
      split_path p = (folder_prefix (glob_dirname root), stem +:+ suffix) ∧
      is_hidden (stem +:+ suffix) = false.
Proof.
  unfold has_image. split.
  - intros (ext & Hext & Hglob).
    apply image_extensions_suffixes in Hext as (suffix & Hsuffix & ->).
    destruct (image_suffix_plain _ Hsuffix) as [Hplain Hslash].
    destruct (glob_glob_visible _ w) as [|p l] eqn:Hl; [contradiction|].
    assert (p ∈ glob_glob_visible
                  (os_path_join root (String "*" suffix)) w) as Hp
      by (rewrite Hl; left).
    apply glob_glob_visible_member in Hp
      as (Hsome & Hdir & Hmatch & Hvis); [| exact Hslash | reflexivity].
    apply fnmatch_suffix in Hmatch as [stem Hname]; [|exact Hplain].
    exists p, stem, suffix. split; [exact Hsuffix|]. split; [exact Hsome|].
    rewrite <- Hname, <- Hdir. split; [|exact Hvis].
    destruct (split_path p); reflexivity.
  - intros (p & stem & suffix & Hsuffix & Hsome & Hsplit & Hvis).
    destruct (image_suffix_plain _ Hsuffix) as [Hplain Hslash].
    exists (String "*" suffix). split.
    + apply image_extensions_suffixes. eauto.
    + assert (p ∈ glob_glob_visible
                    (os_path_join root (String "*" suffix)) w) as Hp.
      { apply glob_glob_visible_member; [exact Hslash|reflexivity|].
        rewrite Hsplit. simpl. split; [exact Hsome|]. split; [reflexivity|].
        split; [|exact Hvis]. apply fnmatch_suffix; [exact Hplain|].
        exists stem. reflexivity. }
      intros Hnil. rewrite Hnil in Hp. inversion Hp.
Qed.

(** X13: a folder whose path has no wildcard is listed exactly when
    [os.walk] visits it, its path does not contain [concatenated], and it
    holds an entry (a file, and also a directory or a link), not hidden,
    whose name ends in one of the six extensions (in lower case). *)
Theorem find_image_folders_member
    (os_walk : list (string * list string * list string)) (w : world)
    (root : string) :
  has_magic root = false →
  root ∈ find_image_folders os_walk w
  ↔ (∃ dirs files, (root, dirs, files) ∈ os_walk) ∧
    str_contains "concatenated" root = false ∧
    ∃ p stem suffix,
      suffix ∈ image_suffixes ∧ is_Some (fs w !! p) ∧
      split_path p = (folder_prefix (glob_dirname root), stem +:+ suffix) ∧
      is_hidden (stem +:+ suffix) = false.
Proof.
  intros _. unfold find_image_folders, sorted.
  rewrite merge_sort_Permutation, elem_of_elements, walk_folders_member.
  rewrite has_image_iff. split.
  - intros [H|H]; [|exact H]. apply not_elem_of_empty in H. contradiction.
  - intros H. right. exact H.
Qed.

Example find_image_folders_project :
  find_image_folders project_walk project_world = ["."; "./frames"].
Proof. vm_compute. reflexivity. Qed.

Lemma find_image_folders_member_witness :
  "./frames" ∈ find_image_folders project_walk project_world
  ↔ (∃ dirs files, ("./frames", dirs, files) ∈ project_walk) ∧
    str_contains "concatenated" "./frames" = false ∧
    ∃ p stem suffix,
      suffix ∈ image_suffixes ∧ is_Some (fs project_world !! p) ∧
      split_path p
      = (folder_prefix (glob_dirname "./frames"), stem +:+ suffix) ∧
      is_hidden (stem +:+ suffix) = false.
Proof.
  apply (find_image_folders_member project_walk project_world "./frames").
  reflexivity.
Defined.

(** A folder that holds nothing but a directory named like an image is
    listed: [glob] does not ask what the name stands for. *)
Example find_image_folders_album :
  find_image_folders album_walk album_world = ["./album"].
Proof. vm_compute. reflexivity. Qed.

(** X14: the folders come in ascending order, each once. *)
Theorem find_image_folders_sorted
    (os_walk : list (string * list string * list string)) (w : world) :
  StronglySorted String.le (find_image_folders os_walk w) ∧
  NoDup (find_image_folders os_walk w).
Proof.
  unfold find_image_folders, sorted. split.
  - apply (StronglySorted_merge_sort String.le).
  - rewrite merge_sort_Permutation. apply NoDup_elements.
Qed.

(** X15: the list depends only on which folders the walk visits: the order
    of the visit, repeated visits and the names that the walk reports
    inside each folder do not change it. *)
Theorem find_image_folders_order_free
    (walk1 walk2 : list (string * list string * list string)) (w : world) :
  (∀ root, root ∈ (λ e, e.1.1) <$> walk1 ↔ root ∈ (λ e, e.1.1) <$> walk2) →
  find_image_folders walk1 w = find_image_folders walk2 w.
Proof.
  intros Hroots. unfold find_image_folders. do 2 f_equal.
  apply set_eq. intros x. rewrite !walk_folders_member.
  assert (∀ walk : list (string * list string * list string),
            (∃ dirs files, (x, dirs, files) ∈ walk)
            ↔ x ∈ (λ e, e.1.1) <$> walk) as Hvisit.
  { intros walk. rewrite list_elem_of_fmap. split.
    - intros (d & f & Hin). exists (x, d, f). split; [reflexivity|exact Hin].
    - intros ([[r d] f] & -> & Hin). exists d, f. exact Hin. }
  rewrite !Hvisit, Hroots. reflexivity.
Qed.

Lemma find_image_folders_order_free_witness :
  find_image_folders project_walk project_world
  = find_image_folders (rev project_walk ++ [("./frames", ["x"], [])])
                       project_world.
Proof.
  apply (find_image_folders_order_free project_walk
           (rev project_walk ++ [("./frames", ["x"], [])]) project_world).
  intros root. rewrite !list_elem_of_In. unfold project_walk. simpl. tauto.
Defined.

Lemma starts_with_append (a b : string) : starts_with a (a +:+ b) = true.
Proof.
  induction a as [|c a IH]; [reflexivity|].
  rewrite append_cons. simpl. rewrite Ascii.eqb_refl. exact IH.
Qed.

Lemma str_contains_middle (needle a b : string) :
  str_contains needle (a +:+ needle +:+ b) = true.
Proof.
  induction a as [|c a IH].
  - change ("" +:+ needle +:+ b) with (needle +:+ b).
    destruct (needle +:+ b) eqn:E; simpl; rewrite <- E;
      rewrite starts_with_append; reflexivity.
  - rewrite append_cons. simpl. rewrite IH. apply orb_true_r.
Qed.

(** X16: no listed folder has [concatenated] anywhere in its path: neither
    the output folder, nor a folder below it, nor a folder whose name
    merely contains the word. *)
Theorem find_image_folders_skips_concatenated
    (os_walk : list (string * list string * list string)) (w : world)
    (before after : string) :
  before +:+ "concatenated" +:+ after ∉ find_image_folders os_walk w.
Proof.
  unfold find_image_folders, sorted.
  rewrite merge_sort_Permutation, elem_of_elements, walk_folders_member.
  intros [H|(_ & Hname & _)].
  - apply not_elem_of_empty in H. exact H.
  - rewrite str_contains_middle in Hname. discriminate.
Qed.

(** * Properties of [open_file_explorer] *)

Lemma os_path_dirname_output_path (now : datetime) (r : N) :
  os_path_dirname (output_path now r) = "concatenated".
Proof.
  unfold os_path_dirname. rewrite split_path_output_path. reflexivity.
Qed.

(** X17: on a system that is neither Windows nor macOS, revealing an output
    file runs one command, [xdg-open concatenated]: the folder is opened,
    not the file.  When the command raises, the exception is printed and
    swallowed. *)
Theorem open_file_explorer_opens_folder (platform_system : string)
    (subprocess_run : list string → M unit) (now : datetime) (r : N)
    (w : world) :
  platform_system ≠ "Windows" → platform_system ≠ "Darwin" →
  open_file_explorer platform_system subprocess_run (output_path now r) w
  = match subprocess_run ["xdg-open"; "concatenated"] w with
    | (Return _, w') => (Return (), w')
    | (Raise e, w') =>
        (Return (),
         World (fs w') (save_faults w') (open_handles w') (next_handle w')
               (stdout w' ++ [explorer_error_prefix +:+ str_exn e]))
    end.
Proof.
  intros Hwin Hmac. unfold open_file_explorer, try_except.
  apply String.eqb_neq in Hwin, Hmac. rewrite Hwin, Hmac.
  rewrite os_path_dirname_output_path.
  destruct (subprocess_run ["xdg-open"; "concatenated"] w) as [[[]|e] w'];
    reflexivity.
Qed.

Lemma open_file_explorer_opens_folder_witness :
  open_file_explorer "Linux" no_xdg_open (output_path morning 500) sample_world
  = match no_xdg_open ["xdg-open"; "concatenated"] sample_world with
    | (Return _, w') => (Return (), w')
    | (Raise e, w') =>
        (Return (),
         World (fs w') (save_faults w') (open_handles w') (next_handle w')
               (stdout w' ++ [explorer_error_prefix +:+ str_exn e]))
    end.
Proof.
  apply (open_file_explorer_opens_folder "Linux" no_xdg_open morning 500
           sample_world); discriminate.
Defined.

(** * Properties of [main] *)

(** ** What [main] leaves alone *)

Lemma keeps_file_refl q w : keeps_file q w w.
Proof. reflexivity. Qed.

Lemma keeps_file_trans q w1 w2 w3 :
  keeps_file q w1 w2 → keeps_file q w2 w3 → keeps_file q w1 w3.
Proof. unfold keeps_file. congruence. Qed.

Lemma keeps_file_fs q w w' : fs w' = fs w → keeps_file q w w'.
Proof. unfold keeps_file. intros ->. reflexivity. Qed.

Lemma io_keeps_bind {A B} q (m : IO A) (k : A → IO B) :
  io_keeps q m → (∀ a, io_keeps q (k a)) → io_keeps q (io_bind m k).
Proof.
  intros Hm Hk stdin w. unfold io_bind.
  specialize (Hm stdin w). destruct (m stdin w) as [[[a|e] stdin'] w'].
  - eapply keeps_file_trans; [exact Hm|apply Hk].
  - exact Hm.
Qed.

Lemma io_keeps_lift {A} q (m : M A) :
  (∀ w, keeps_file q w (m w).2) → io_keeps q (lift m).
Proof.
  intros Hm stdin w. unfold lift. specialize (Hm w).
  destruct (m w) as [[a|e] w']; exact Hm.
Qed.

Lemma io_keeps_say q s : io_keeps q (say s).
Proof. intros stdin w. reflexivity. Qed.

Lemma io_keeps_say_folders q i image_folders :
  io_keeps q (say_folders i image_folders).
Proof.
  revert i. induction image_folders as [|f rest IH]; intros i.
  - intros stdin w. reflexivity.
  - simpl. apply io_keeps_bind; [apply io_keeps_say|]. intros _. apply IH.
Qed.

Lemma io_keeps_say_names q segment_files :
  io_keeps q (say_names segment_files).
Proof.
  induction segment_files as [|f rest IH].
  - intros stdin w. reflexivity.
  - simpl. apply io_keeps_bind; [apply io_keeps_say|]. intros _. apply IH.
Qed.

Lemma io_keeps_select_folder q env image_folders :
  io_keeps q (select_folder env image_folders).
Proof.
  intros stdin. induction stdin as [|line rest IH]; intros w; simpl.
  - reflexivity.
  - destruct (isdigit _ _).
    + destruct (int_of_str _ _) as [n|].
      * destruct (_ && _).
        -- destruct (image_folders !! _); reflexivity.
        -- eapply keeps_file_trans; [|apply IH]. reflexivity.
      * eapply keeps_file_trans; [|apply IH]. reflexivity.
    + destruct (env_exists _ _); [reflexivity|].
      eapply keeps_file_trans; [|apply IH]. reflexivity.
Qed.

Lemma io_keeps_choose_direction q env :
  io_keeps q (choose_direction env).
Proof.
  intros stdin. induction stdin as [|line rest IH]; intros w; simpl.
  - reflexivity.
  - destruct (String.eqb _ "1"); [reflexivity|].
    destruct (String.eqb _ "2"); [reflexivity|].
    eapply keeps_file_trans; [|apply IH]. reflexivity.
Qed.

Lemma open_file_explorer_fs env file_path w :
  run_keeps_files env →
  fs (open_file_explorer (env_system env) (env_run env) file_path w).2 = fs w.
Proof.
  intros Hrun. unfold open_file_explorer, try_except.
  destruct (String.eqb _ "Windows"); [|destruct (String.eqb _ "Darwin")];
    match goal with
    | |- context [env_run env ?argv w] =>
        specialize (Hrun argv w); destruct (env_run env argv w) as [[u|e] w']
    end; exact Hrun.
Qed.

Lemma io_keeps_ask_reveal q env output_path :
  run_keeps_files env → io_keeps q (ask_reveal env output_path).
Proof.
  intros Hrun stdin. induction stdin as [|line rest IH]; intros w; simpl.
  - reflexivity.
  - destruct (_ || _).
    + eapply (keeps_file_trans q w (said reveal_prompt w)); [reflexivity|].
      apply (io_keeps_lift q). intros w0.
      apply keeps_file_fs, open_file_explorer_fs, Hrun.
    + destruct (_ || _); [reflexivity|].
      eapply keeps_file_trans; [|apply IH]. reflexivity.
Qed.

Lemma check_image_sizes_fs file_paths w :
  fs (check_image_sizes file_paths w).2 = fs w ∧
  save_faults (check_image_sizes file_paths w).2 = save_faults w.
Proof.
  destruct file_paths as [|first others]; [split; reflexivity|].
  simpl. unfold try_except, bind.
  destruct (open_cases w first) as [(sz & data & Hp)|(e & Hp)].
  - opened Hp.
    pose proof (check_rest_quiet sz others (after_with w)) as (Hfs & Hsf & _).
    destruct (check_rest sz others (after_with w)) as [[[]|e] w2];
      simpl in *; split; assumption.
  - refused Hp. split; reflexivity.
Qed.

Lemma concatenate_images_keeps file_paths direction output_path w q :
  q ≠ output_path →
  keeps_file q w (concatenate_images file_paths direction output_path w).2.
Proof.
  intros Hq. unfold keeps_file.
  destruct file_paths as [|p rest]; [reflexivity|].
  unfold concatenate_images, try_except, bind.
  pose proof (open_images_quiet [] (p :: rest) w) as (Hfs1 & Hsf1 & _).
  destruct (open_images [] (p :: rest) w) as [[images|e] w1]; simpl in *.
  2:{ rewrite Hfs1. reflexivity. }
  pose proof (compose_world images direction w1) as Hw2.
  destruct (compose images direction w1) as [[c|e] w2]; simpl in Hw2; subst w2.
  2:{ simpl. rewrite Hfs1. reflexivity. }
  unfold Image_save.
  destruct (save_faults w1 !! output_path) as [[left_over|]|]; simpl;
    rewrite ?close_images_eq; simpl; rewrite Hfs1.
  - apply lookup_insert_ne. congruence.
  - apply lookup_delete_ne. congruence.
  - apply lookup_insert_ne. congruence.
Qed.

Lemma mkdir_exist_ok_keeps fault path q w :
  q ≠ path → keeps_file q w (mkdir_exist_ok fault path w).2.
Proof.
  intros Hq. unfold keeps_file, mkdir_exist_ok.
  destruct (fs w !! path) as [[| | | |sz data]|]; try reflexivity.
  destruct fault as [e|]; [reflexivity|].
  simpl. apply lookup_insert_ne. congruence.
Qed.

Lemma io_keeps_process_folder q env selected_folder :
  run_keeps_files env →
  q ≠ output_path (env_now env) (env_randint env) →
  q ≠ "concatenated" →
  io_keeps q (process_folder env selected_folder).
Proof.
  intros Hrun Hq Hdir. unfold process_folder.
  apply io_keeps_bind; [apply io_keeps_say|]. intros _.
  apply io_keeps_bind; [intros stdin w; reflexivity|]. intros files.
  destruct files as [|p files]; [apply io_keeps_say|].
  cbv beta iota. generalize (p :: files). clear p files. intros segment_files.
  apply io_keeps_bind; [apply io_keeps_say|]. intros _.
  apply io_keeps_bind; [apply io_keeps_say_names|]. intros _.
  apply io_keeps_bind; [apply io_keeps_say|]. intros _.
  apply io_keeps_bind.
  { apply io_keeps_lift. intros w. apply keeps_file_fs, check_image_sizes_fs. }
  intros [sizes_match base_size].
  destruct sizes_match; cbn [negb]; cbv beta iota; [|apply io_keeps_say].
  destruct base_size as [[bw bh]|]; [|intros stdin w; reflexivity].
  apply io_keeps_bind; [apply io_keeps_say|]. intros _.
  apply io_keeps_bind; [apply io_keeps_choose_direction|].
  intros [direction direction_text].
  apply io_keeps_bind.
  { apply io_keeps_lift. intros w. apply mkdir_exist_ok_keeps. exact Hdir. }
  intros _.
  apply io_keeps_bind; [apply io_keeps_say|]. intros _.
  apply io_keeps_bind.
  { apply io_keeps_lift. intros w. apply concatenate_images_keeps. exact Hq. }
  intros success. destruct success; cbn [negb]; cbv beta iota;
    [|apply io_keeps_say].
  apply io_keeps_bind; [apply io_keeps_say|]. intros _.
  apply io_keeps_bind; [apply io_keeps_say|]. intros _.
  apply io_keeps_bind; [apply io_keeps_ask_reveal; exact Hrun|]. intros _.
  apply io_keeps_say.
Qed.

Lemma io_keeps_main q env :
  run_keeps_files env →
  q ≠ output_path (env_now env) (env_randint env) →
  q ≠ "concatenated" →
  io_keeps q (main env).
Proof.
  intros Hrun Hq Hdir.
  unfold main.
  apply io_keeps_bind; [apply io_keeps_say|]. intros _.
  apply io_keeps_bind; [apply io_keeps_say|]. intros _.
  apply io_keeps_bind; [apply io_keeps_say|]. intros _.
  apply io_keeps_bind; [intros stdin w; reflexivity|]. intros folders.
  destruct folders as [|f folders]; [apply io_keeps_say|].
  apply io_keeps_bind; [apply io_keeps_say|]. intros _.
  apply io_keeps_bind; [apply io_keeps_say_folders|]. intros _.
  apply io_keeps_bind; [apply io_keeps_say|]. intros _.
  apply io_keeps_bind; [apply io_keeps_select_folder|]. intros selected_folder.
  apply io_keeps_process_folder; assumption.
Qed.

(** X18: whatever is typed, and however the run ends, [main] changes
    nothing but the output file of this run and, when it is not there yet,
    the folder [concatenated]: a path that, seen from the working
    directory, names neither of the two holds after the run what it held
    before.  No fragment and no earlier output is modified or removed. *)
Theorem main_touches_only_output (env : environment) (stdin : list string)
    (w : world) (cwd q : string) :
  run_keeps_files env →
  os_path_abspath cwd q
  ≠ os_path_abspath cwd (output_path (env_now env) (env_randint env)) →
  os_path_abspath cwd q ≠ os_path_abspath cwd "concatenated" →
  fs (main env stdin w).2 !! q = fs w !! q.
Proof.
  intros Hrun Hq Hdir.
  apply (io_keeps_main q env Hrun); congruence.
Qed.

Lemma main_touches_only_output_witness :
  fs (main project_env ["2"; "1"; "y"] project_world).2
     !! "./frames/segment_01.png"
  = fs project_world !! "./frames/segment_01.png".
Proof.
  apply (main_touches_only_output project_env ["2"; "1"; "y"] project_world
           "/home/artist/project" "./frames/segment_01.png").
  - intros argv w. reflexivity.
  - vm_compute. discriminate.
  - vm_compute. discriminate.
Defined.

(** ** The folder loop *)

(** X19: when the folder loop ends, the last line read decides.  If,
    stripped, it is made of digits, it is a number between 1 and the
    number of folders listed, and the folder of that number, counted from
    1 as on the screen, is selected; a line of digits is never used as a
    path.  Otherwise it is a path that exists, selected as typed. *)
Theorem select_folder_selects (env : environment) (image_folders : list string)
    (stdin rest : list string) (w w' : world) (selected : string) :
  select_folder env image_folders stdin w = (Done selected, rest, w') →
  ∃ used line,
    stdin = used ++ line :: rest ∧
    names_folder env image_folders line selected.
Proof.
  revert w. induction stdin as [|line stdin IH]; intros w; simpl.
  - discriminate.
  - assert (∀ w0, select_folder env image_folders stdin w0
                  = (Done selected, rest, w') →
            ∃ used line0, line :: stdin = used ++ line0 :: rest ∧
                          names_folder env image_folders line0 selected)
      as Hlater.
    { intros w0 H. destruct (IH w0 H) as (used & line0 & -> & Hline).
      exists (line :: used), line0. split; [reflexivity|exact Hline]. }
    unfold names_folder.
    destruct (isdigit _ _) eqn:Hdigit.
    + destruct (int_of_str _ _) as [n|] eqn:Hint; [|apply Hlater].
      destruct (_ && _) eqn:Hrange; [|apply Hlater].
      destruct (image_folders !! _) as [f|] eqn:Hf; [|discriminate].
      intros [= -> -> _]. exists [], line. split; [reflexivity|].
      left. split; [exact Hdigit|]. exists n.
      apply andb_true_iff in Hrange as [Hlo Hhi].
      apply Z.leb_le in Hlo. apply Z.ltb_lt in Hhi.
      split; [exact Hint|]. split; [lia|exact Hf].
    + destruct (env_exists _ _) eqn:Hexists; [|apply Hlater].
      intros [= <- -> _]. exists [], line. split; [reflexivity|].
      right. split; [exact Hdigit|]. split; [exact Hexists|reflexivity].
Qed.

Lemma select_folder_selects_witness :
  ∃ used line,
    ["7"; "x"; " 2 "; "1"] = used ++ line :: ["1"] ∧
    names_folder project_env ["."; "./frames"] line "./frames".
Proof.
  apply (select_folder_selects project_env ["."; "./frames"]
           ["7"; "x"; " 2 "; "1"] ["1"] project_world
           (select_folder project_env ["."; "./frames"]
              ["7"; "x"; " 2 "; "1"] project_world).2 "./frames").
  vm_compute. reflexivity.
Defined.

(** ** What escapes from [main] *)

Lemma io_ends_well_bind {A B} env (Q : A → Prop) (R : B → Prop)
    (m : IO A) (k : A → IO B) :
  io_ends_well env Q m → (∀ a, Q a → io_ends_well env R (k a)) →
  io_ends_well env R (io_bind m k).
Proof.
  intros Hm Hk stdin w. unfold io_bind. specialize (Hm stdin w).
  destruct (m stdin w) as [[[a|e] stdin'] w']; simpl in *.
  - apply Hk. exact Hm.
  - exact Hm.
Qed.

Lemma io_ends_well_say env s : io_ends_well env (λ _, True) (say s).
Proof. intros stdin w. exact I. Qed.

Lemma io_ends_well_say_folders env i image_folders :
  io_ends_well env (λ _, True) (say_folders i image_folders).
Proof.
  revert i. induction image_folders as [|f rest IH]; intros i.
  - intros stdin w. exact I.
  - simpl. eapply io_ends_well_bind; [apply io_ends_well_say|].
    intros _ _. apply IH.
Qed.

Lemma io_ends_well_say_names env segment_files :
  io_ends_well env (λ _, True) (say_names segment_files).
Proof.
  induction segment_files as [|f rest IH].
  - intros stdin w. exact I.
  - simpl. eapply io_ends_well_bind; [apply io_ends_well_say|].
    intros _ _. apply IH.
Qed.

Lemma io_ends_well_select_folder env image_folders :
  io_ends_well env (λ _, True) (select_folder env image_folders).
Proof.
  intros stdin. induction stdin as [|line rest IH]; intros w; simpl.
  - reflexivity.
  - destruct (isdigit _ _).
    + destruct (int_of_str _ _) as [n|]; [|apply IH].
      destruct (_ && _) eqn:Hrange; [|apply IH].
      apply andb_true_iff in Hrange as [Hlo Hhi].
      apply Z.leb_le in Hlo. apply Z.ltb_lt in Hhi.
      destruct (lookup_lt_is_Some_2 image_folders (Z.to_nat (n - 1)))
        as [f Hf]; [lia|].
      rewrite Hf. exact I.
    + destruct (env_exists _ _); [exact I|apply IH].
Qed.

Lemma io_ends_well_choose_direction env :
  io_ends_well env (λ _, True) (choose_direction env).
Proof.
  intros stdin. induction stdin as [|line rest IH]; intros w; simpl.
  - reflexivity.
  - destruct (String.eqb _ "1"); [exact I|].
    destruct (String.eqb _ "2"); [exact I|apply IH].
Qed.

Lemma open_file_explorer_returns system run file_path w :
  (open_file_explorer system run file_path w).1 = Return ().
Proof.
  unfold open_file_explorer, try_except.
  destruct (String.eqb system "Windows"); [|destruct (String.eqb system "Darwin")];
    match goal with
    | |- context [run ?argv w] => destruct (run argv w) as [[[]|e] w']
    end; reflexivity.
Qed.

Lemma io_ends_well_ask_reveal env output_path :
  io_ends_well env (λ _, True) (ask_reveal env output_path).
Proof.
  intros stdin. induction stdin as [|line rest IH]; intros w; simpl.
  - reflexivity.
  - destruct (_ || _).
    + unfold lift.
      pose proof (open_file_explorer_returns (env_system env) (env_run env)
                    output_path (said reveal_prompt w)) as Hret.
      destruct (open_file_explorer _ _ _ _) as [[u|e] w']; [exact I|].
      discriminate Hret.
    + destruct (_ || _); [exact I|apply IH].
Qed.

Lemma check_image_sizes_value file_paths w :
  (check_image_sizes file_paths w).1 = Return (false, None) ∨
  ∃ sz, (check_image_sizes file_paths w).1 = Return (true, Some sz).
Proof.
  destruct file_paths as [|first others]; [left; reflexivity|].
  simpl. unfold try_except, bind.
  destruct (with_open first _ w) as [[base|e] w1]; [|left; reflexivity].
  destruct (check_rest base others w1) as [[[]|e] w2]; simpl; eauto.
Qed.

Lemma concatenate_images_returns file_paths direction output_path w :
  ∃ ok, (concatenate_images file_paths direction output_path w).1 = Return ok.
Proof.
  destruct file_paths as [|p rest]; [exists false; reflexivity|].
  unfold concatenate_images, try_except, bind.
  destruct (open_images [] (p :: rest) w) as [[images|e] w1];
    [|exists false; reflexivity].
  destruct (compose images direction w1) as [[c|e] w2];
    [|exists false; reflexivity].
  destruct (Image_save c output_path w2) as [[u|e] w3];
    [|exists false; reflexivity].
  rewrite close_images_eq. exists true. reflexivity.
Qed.

Lemma io_ends_well_process_folder env selected_folder :
  io_ends_well env (λ _, True) (process_folder env selected_folder).
Proof.
  unfold process_folder.
  eapply io_ends_well_bind; [apply io_ends_well_say|]. intros _ _.
  eapply (io_ends_well_bind env (λ _, True)); [intros stdin w; exact I|].
  intros files _.
  destruct files as [|p files]; [apply io_ends_well_say|].
  cbv beta iota. generalize (p :: files). clear p files. intros segment_files.
  eapply io_ends_well_bind; [apply io_ends_well_say|]. intros _ _.
  eapply io_ends_well_bind; [apply io_ends_well_say_names|]. intros _ _.
  eapply io_ends_well_bind; [apply io_ends_well_say|]. intros _ _.
  eapply (io_ends_well_bind env
            (λ v, v = (false, None) ∨ ∃ sz, v = (true, Some sz))).
  { intros stdin w. unfold lift.
    pose proof (check_image_sizes_value segment_files w) as Hv.
    destruct (check_image_sizes segment_files w) as [[v|e] w']; simpl in *.
    - destruct Hv as [[= ->]|[sz [= ->]]]; eauto.
    - destruct Hv as [Hv|[sz Hv]]; discriminate Hv. }
  intros [sizes_match base_size] Hv.
  destruct Hv as [[= -> ->]|[[bw bh] [= -> ->]]]; cbn [negb]; cbv beta iota;
    [apply io_ends_well_say|].
  eapply io_ends_well_bind; [apply io_ends_well_say|]. intros _ _.
  eapply io_ends_well_bind; [apply io_ends_well_choose_direction|].
  intros [direction direction_text] _.
  eapply (io_ends_well_bind env (λ _, True)).
  { intros stdin w. unfold lift, mkdir_exist_ok.
    destruct (fs w !! "concatenated") as [[| | | |sz data]|];
      simpl; try (left; reflexivity); try exact I.
    destruct (env_mkdir_fault env) as [e|] eqn:Hfault; simpl;
      [right; exact Hfault|exact I]. }
  intros _ _.
  eapply io_ends_well_bind; [apply io_ends_well_say|]. intros _ _.
  eapply (io_ends_well_bind env (λ _, True)).
  { intros stdin w. unfold lift.
    destruct (concatenate_images_returns segment_files direction
                (output_path (env_now env) (env_randint env)) w) as [ok Hok].
    destruct (concatenate_images _ _ _ w) as [[b|e] w']; [exact I|].
    discriminate Hok. }
  intros success _. destruct success; cbn [negb]; cbv beta iota;
    [|apply io_ends_well_say].
  eapply io_ends_well_bind; [apply io_ends_well_say|]. intros _ _.
  eapply io_ends_well_bind; [apply io_ends_well_say|]. intros _ _.
  eapply io_ends_well_bind; [apply io_ends_well_ask_reveal|]. intros _ _.
  apply io_ends_well_say.
Qed.

(** X20: no error of the validator, of the compositor or of the file
    manager escapes from [main].  A run ends normally, or with [EOFError]
    when the input ends at a prompt, every line being read, or with an
    error of [mkdir]: [FileExistsError] when [concatenated] is a file, or
    the error with which the system refuses to create the folder. *)
Theorem main_ends_well (env : environment) (stdin : list string) (w : world) :
  match main env stdin w with
  | (Done _, _, _) => True
  | (Crash EOFError, rest, _) => rest = []
  | (Crash (LibraryError e), _, _) =>
      e = FileExistsError "concatenated" ∨ env_mkdir_fault env = Some e
  | (Crash TypeError, _, _) => False
  end.
Proof.
  change (ends_well env (λ _ : unit, True) (main env stdin w)).
  revert stdin w. change (io_ends_well env (λ _, True) (main env)). unfold main.
  eapply io_ends_well_bind; [apply io_ends_well_say|]. intros _ _.
  eapply io_ends_well_bind; [apply io_ends_well_say|]. intros _ _.
  eapply io_ends_well_bind; [apply io_ends_well_say|]. intros _ _.
  eapply (io_ends_well_bind env (λ _, True)); [intros stdin w; exact I|].
  intros folders _.
  destruct folders as [|f folders]; [apply io_ends_well_say|].
  eapply io_ends_well_bind; [apply io_ends_well_say|]. intros _ _.
  eapply io_ends_well_bind; [apply io_ends_well_say_folders|]. intros _ _.
  eapply io_ends_well_bind; [apply io_ends_well_say|]. intros _ _.
  eapply io_ends_well_bind; [apply io_ends_well_select_folder|].
  intros selected_folder _. apply io_ends_well_process_folder.
Qed.

(** ** The work on the selected folder *)

Lemma said_all_disk lines w :
  fs (said_all lines w) = fs w ∧
  save_faults (said_all lines w) = save_faults w.
Proof.
  revert w. induction lines as [|s lines IH]; intros w; [split; reflexivity|].
  unfold said_all. simpl. apply (IH (said s w)).
Qed.

Lemma say_names_run segment_files stdin w :
  say_names segment_files stdin w
  = (Done (), stdin,
     said_all (map (λ p, "  - " +:+ os_path_basename p) segment_files) w).
Proof.
  revert w. induction segment_files as [|p rest IH]; intros w; [reflexivity|].
  simpl. unfold io_bind, say, lift. simpl. apply IH.
Qed.

Lemma io_bind_say {B} s (k : unit → IO B) stdin w :
  io_bind (say s) k stdin w = k () stdin (said s w).
Proof. reflexivity. Qed.

Lemma io_bind_say_names {B} segment_files (k : unit → IO B) stdin w :
  io_bind (say_names segment_files) k stdin w
  = k () stdin
      (said_all (map (λ p, "  - " +:+ os_path_basename p) segment_files) w).
Proof. unfold io_bind. rewrite say_names_run. reflexivity. Qed.

Lemma io_bind_lift {A B} (m : M A) (k : A → IO B) stdin w :
  io_bind (lift m) k stdin w
  = match m w with
    | (Return a, w') => k a stdin w'
    | (Raise e, w') => (Crash (LibraryError e), stdin, w')
    end.
Proof. unfold io_bind, lift. destruct (m w) as [[a|e] w']; reflexivity. Qed.

Lemma opens_as_same_fs w w' p sz data :
  fs w' = fs w → opens_as w' p sz data ↔ opens_as w p sz data.
Proof. unfold opens_as. intros ->. reflexivity. Qed.

Lemma find_segment_files_same_fs folder w w' :
  fs w' = fs w → find_segment_files folder w' = find_segment_files folder w.
Proof.
  intros H. unfold find_segment_files, glob_glob. rewrite H. reflexivity.
Qed.

(** X21: when the selected folder, named without a wildcard, has no
    fragment, or its fragments do not all open with one size, the run stops
    after the validation: it prints the reason, asks nothing more, and no
    file or folder is created or changed. *)
Theorem process_folder_rejects (env : environment) (selected_folder : string)
    (stdin : list string) (w : world) :
  let segment_files := find_segment_files selected_folder w in
  has_magic selected_folder = false →
  segment_files = [] ∨
  ¬ (∃ sz, Forall (λ p, ∃ data, opens_as w p sz data) segment_files) →
  ∃ w',
    process_folder env selected_folder stdin w = (Done (), stdin, w') ∧
    fs w' = fs w ∧
    last (stdout w')
    = Some (if decide (segment_files = [])
            then no_fragments_message else size_mismatch_message).
Proof.
  intros segment_files _ Hbad. unfold process_folder.
  rewrite io_bind_say. unfold io_bind at 1.
  change (find_segment_files selected_folder (said _ w)) with segment_files.
  destruct (decide (segment_files = [])) as [Hnil|Hsome].
  { rewrite Hnil. eexists. split; [reflexivity|]. split; [reflexivity|].
    simpl. apply last_snoc. }
  destruct Hbad as [Hnil|Hbad]; [contradiction|].
  destruct segment_files as [|p files] eqn:Hfiles; [contradiction|].
  cbv beta iota. rewrite <- Hfiles in *. clear Hfiles p files.
  rewrite io_bind_say, io_bind_say_names, io_bind_say, io_bind_lift.
  match goal with
  | |- context [check_image_sizes segment_files ?before] => set (w1 := before)
  end.
  assert (fs w1 = fs w) as Hfs1.
  { subst w1. simpl. etrans; [apply said_all_disk|]. reflexivity. }
  pose proof (check_image_sizes_fs segment_files w1) as [Hfs2 _].
  destruct (check_image_sizes_value segment_files w1) as [Hv|[sz Hv]].
  - destruct (check_image_sizes segment_files w1) as [r w2].
    simpl in Hv, Hfs2. subst r. cbn [negb]. cbv beta iota.
    eexists. split; [reflexivity|].
    split; [change (fs w2 = fs w); rewrite Hfs2; exact Hfs1|].
    simpl. apply last_snoc.
  - exfalso. apply Hbad. exists sz.
    apply check_image_sizes_sound in Hv as [_ Hall].
    eapply Forall_impl; [exact Hall|]. intros q [d Hq]. exists d.
    apply (opens_as_same_fs w w1); assumption.
Qed.

Lemma process_folder_rejects_witness :
  let segment_files := find_segment_files "frames" sample_world in
  ∃ w',
    process_folder project_env "frames" ["1"; "y"] sample_world
    = (Done (), ["1"; "y"], w') ∧
    fs w' = fs sample_world ∧
    last (stdout w')
    = Some (if decide (segment_files = [])
            then no_fragments_message else size_mismatch_message).
Proof.
  apply (process_folder_rejects project_env "frames" ["1"; "y"] sample_world).
  { reflexivity. }
  right. intros [sz Hall].
  change (find_segment_files "frames" sample_world)
    with [frame_01; frame_02; frame_03] in Hall.
  apply Forall_cons in Hall as [[d1 H1] Hall].
  apply Forall_cons in Hall as [_ Hall].
  apply Forall_cons in Hall as [[d3 H3] _].
  vm_compute in H1, H3. congruence.
Defined.

Lemma readable_same_fs w w' (file_paths : list string)
    (frags : list (size * raster)) :
  fs w' = fs w →
  Forall2 (readable w) file_paths frags →
  Forall2 (readable w') file_paths frags.
Proof.
  intros Hfs Hall. eapply Forall2_impl; [exact Hall|].
  intros p f Hp. unfold readable, opens_as in *. rewrite Hfs. exact Hp.
Qed.

Lemma readable_all_same w (file_paths : list string)
    (frags : list (size * raster)) sz :
  Forall2 (readable w) file_paths frags →
  Forall (λ f : size * raster, f.1 = sz) frags →
  Forall (λ p, ∃ data, opens_as w p sz data) file_paths.
Proof.
  intros Hall. induction Hall as [|p f ps fs' Hp _ IH]; intros Hsz;
    constructor.
  - apply Forall_cons in Hsz as [<- _]. exists (Some f.2). exact Hp.
  - apply IH. apply Forall_cons in Hsz as [_ Hsz]. exact Hsz.
Qed.

Lemma mkdir_exist_ok_creates fault path w :
  fs w !! path = Some Directory ∨ (fs w !! path = None ∧ fault = None) →
  mkdir_exist_ok fault path w
  = (Return (), set_fs (<[path := Directory]> (fs w)) w).
Proof.
  unfold mkdir_exist_ok. intros [Hdir|[Hnone ->]].
  - rewrite Hdir, (insert_id _ _ _ Hdir). destruct w; reflexivity.
  - rewrite Hnone. reflexivity.
Qed.

Lemma readable_after_mkdir w w' path (fault : option exn)
    (file_paths : list string) (frags : list (size * raster)) :
  fs w !! path = Some Directory ∨ (fs w !! path = None ∧ fault = None) →
  fs w' = <[path := Directory]> (fs w) →
  Forall2 (readable w) file_paths frags →
  Forall2 (readable w') file_paths frags.
Proof.
  intros Hdir Hfs Hall. eapply Forall2_impl; [exact Hall|].
  intros p f Hp. unfold readable, opens_as in *. rewrite Hfs.
  destruct (decide (p = path)) as [->|Hne].
  - destruct Hdir as [Hdir|[Hdir _]]; congruence.
  - rewrite lookup_insert_ne by congruence. exact Hp.
Qed.

Lemma output_path_not_folder now r : output_path now r ≠ "concatenated".
Proof.
  unfold output_path. intros H. apply (f_equal String.length) in H.
  rewrite length_append in H. simpl in H. lia.
Qed.

(** The run of steps 3 to 8 on decodable fragments of one size, with the
    answers [2] and [n]. *)
Lemma process_folder_run (env : environment) (selected_folder : string)
    (frags : list (size * raster)) (width height : Z)
    (line1 line2 : string) (rest : list string) (w : world) :
  let segment_files := find_segment_files selected_folder w in
  let out := output_path (env_now env) (env_randint env) in
  Forall2 (readable w) segment_files frags →
  frags ≠ [] →
  Forall (λ f : size * raster, f.1 = (width, height)) frags →
  0 ≤ width → 0 ≤ height →
  save_faults w !! out = None →
  fs w !! "concatenated" = Some Directory ∨
  (fs w !! "concatenated" = None ∧ env_mkdir_fault env = None) →
  strip (env_str env) line1 = "2" →
  lower (env_str env) (strip (env_str env) line2) = "n" →
  ∃ w',
    process_folder env selected_folder (line1 :: line2 :: rest) w
    = (Done (), rest, w') ∧
    fs w' = <[out := ImageFile (Z.of_nat (length frags) * width, height)
                               (Some (render (composed "horizontal" frags)))]>
              (<["concatenated" := Directory]> (fs w)).
Proof.
  intros segment_files out Hall Hne Hsz Hw Hh Hsave Hdir Hline1 Hline2.
  subst out. unfold process_folder.
  rewrite io_bind_say. unfold io_bind at 1.
  change (find_segment_files selected_folder (said _ w)) with segment_files.
  destruct segment_files as [|p files] eqn:Hfiles.
  { apply Forall2_nil_inv_l in Hall. contradiction. }
  cbv beta iota. rewrite <- Hfiles in *. clear Hfiles p files.
  rewrite io_bind_say, io_bind_say_names, io_bind_say, io_bind_lift.
  match goal with
  | |- context [check_image_sizes segment_files ?before] => set (w1 := before)
  end.
  assert (fs w1 = fs w ∧ save_faults w1 = save_faults w) as [Hfs1 Hsf1].
  { subst w1. simpl.
    match goal with
    | |- fs (said_all ?lines ?w0) = _ ∧ _ => exact (said_all_disk lines w0)
    end. }
  pose proof (check_image_sizes_fs segment_files w1) as [Hfs2 Hsf2].
  assert ((check_image_sizes segment_files w1).1
          = Return (true, Some (width, height))) as Hv.
  { apply check_image_sizes_all_same.
    - intros Hnil. rewrite Hnil in Hall.
      apply Forall2_nil_inv_l in Hall. contradiction.
    - eapply readable_all_same; [|exact Hsz].
      eapply readable_same_fs; [exact Hfs1|exact Hall]. }
  destruct (check_image_sizes segment_files w1) as [r w2].
  cbn [fst snd] in Hv, Hfs2, Hsf2. subst r. cbn [negb]. cbv beta iota.
  rewrite io_bind_say. unfold io_bind at 1. cbn [choose_direction].
  rewrite Hline1. cbn [String.eqb Ascii.eqb Bool.eqb]. cbv beta iota.
  rewrite io_bind_lift.
  match goal with
  | |- context [mkdir_exist_ok _ _ ?now] =>
      rewrite (mkdir_exist_ok_creates (env_mkdir_fault env) "concatenated" now)
        by (simpl; rewrite ?Hfs2, ?Hfs1; exact Hdir)
  end.
  rewrite io_bind_say, io_bind_lift.
  match goal with
  | |- context [concatenate_images segment_files _ _ ?before] =>
      set (w3 := before)
  end.
  assert (fs w3 = <["concatenated" := Directory]> (fs w) ∧
          save_faults w3 = save_faults w) as [Hfs3 Hsf3].
  { subst w3. simpl. split; congruence. }
  clearbody w3.
  assert (match frags with
          | [] => False
          | first :: _ => 0 ≤ first.1.1 ∧ 0 ≤ first.1.2
          end) as Hpos.
  { destruct frags as [|f frags']; [contradiction|].
    apply Forall_cons in Hsz as [-> _]. split; assumption. }
  rewrite (concatenate_images_ok segment_files "horizontal" _ frags w3
             (readable_after_mkdir _ _ _ _ _ _ Hdir Hfs3 Hall) Hpos
             (eq_trans (f_equal (λ m : gmap string (option file),
                                   m !! output_path (env_now env)
                                          (env_randint env)) Hsf3) Hsave)).
  cbn [negb]. cbv beta iota.
  rewrite !io_bind_say. unfold io_bind at 1. cbn [ask_reveal].
  rewrite Hline2. cbn [String.eqb Ascii.eqb Bool.eqb orb]. cbv beta iota.
  eexists. split; [reflexivity|]. simpl. rewrite Hfs3. f_equal. f_equal.
  destruct frags as [|f frags']; [contradiction|].
  apply Forall_cons in Hsz as [Hf _].
  apply (composed_horizontal f frags' width height Hf).
Qed.

(** X22: a whole run on a folder, named without a wildcard, whose
    fragments all decode with the size (w,h), where the output folder is
    there or can be created: after the answers [2] for the direction and
    [n] for the reveal, the run ends normally with both lines read; the
    output file holds the fragments side by side in an image of size
    (n·w, h), the folder [concatenated] is there, and every path that, seen
    from the working directory, names neither of the two holds what it held
    before. *)
Theorem process_folder_composes (env : environment) (selected_folder : string)
    (frags : list (size * raster)) (width height : Z)
    (line1 line2 : string) (rest : list string) (w : world) :
  let segment_files := find_segment_files selected_folder w in
  let out := output_path (env_now env) (env_randint env) in
  has_magic selected_folder = false →
  Forall2 (readable w) segment_files frags →
  frags ≠ [] →
  Forall (λ f : size * raster, f.1 = (width, height)) frags →
  0 ≤ width → 0 ≤ height →
  save_faults w !! out = None →
  fs w !! "concatenated" = Some Directory ∨
  (fs w !! "concatenated" = None ∧ env_mkdir_fault env = None) →
  strip (env_str env) line1 = "2" →
  lower (env_str env) (strip (env_str env) line2) = "n" →
  ∃ w',
    process_folder env selected_folder (line1 :: line2 :: rest) w
    = (Done (), rest, w') ∧
    fs w' !! out
    = Some (ImageFile (Z.of_nat (length frags) * width, height)
                      (Some (render (composed "horizontal" frags)))) ∧
    fs w' !! "concatenated" = Some Directory ∧
    ∀ cwd q,
      os_path_abspath cwd q ≠ os_path_abspath cwd out →
      os_path_abspath cwd q ≠ os_path_abspath cwd "concatenated" →
      fs w' !! q = fs w !! q.
Proof.
  intros segment_files out _ Hall Hne Hsz Hw Hh Hsave Hdir Hline1 Hline2.
  destruct (process_folder_run env selected_folder frags width height
              line1 line2 rest w Hall Hne Hsz Hw Hh Hsave Hdir Hline1 Hline2)
    as (w' & Hrun & Hfs).
  exists w'. split; [exact Hrun|]. rewrite Hfs. split; [|split].
  - apply lookup_insert_eq.
  - rewrite lookup_insert_ne by apply output_path_not_folder.
    apply lookup_insert_eq.
  - intros cwd q Hq Hfolder.
    rewrite lookup_insert_ne
      by (intros E; apply Hq; rewrite <- E; reflexivity).
    rewrite lookup_insert_ne
      by (intros E; apply Hfolder; rewrite <- E; reflexivity).
    reflexivity.
Qed.

Lemma process_folder_composes_witness :
  let out := output_path (env_now project_env) (env_randint project_env) in
  let frags := [((64, 64), tint 5); ((64, 64), tint 4)] in
  ∃ w',
    process_folder project_env "tiles" [" 2"; "N"; "more"] sample_world
    = (Done (), ["more"], w') ∧
    fs w' !! out
    = Some (ImageFile (Z.of_nat (length frags) * 64, 64)
                      (Some (render (composed "horizontal" frags)))) ∧
    fs w' !! "concatenated" = Some Directory ∧
    ∀ cwd q,
      os_path_abspath cwd q ≠ os_path_abspath cwd out →
      os_path_abspath cwd q ≠ os_path_abspath cwd "concatenated" →
      fs w' !! q = fs sample_world !! q.
Proof.
  apply (process_folder_composes project_env "tiles"
           [((64, 64), tint 5); ((64, 64), tint 4)] 64 64 " 2" "N" ["more"]
           sample_world).
  - reflexivity.
  - vm_compute. repeat constructor.
  - discriminate.
  - repeat constructor.
  - lia.
  - lia.
  - reflexivity.
  - right. split; reflexivity.
  - reflexivity.
  - reflexivity.
Defined.

(** X23: the verdict of the validator does not depend on the order of the
    fragments: two lists with the same paths, in any order, are both
    accepted with the same size or both rejected. *)
Theorem check_image_sizes_order_free (w : world) (paths1 paths2 : list string) :
  paths1 ≡ₚ paths2 →
  (check_image_sizes paths1 w).1 = (check_image_sizes paths2 w).1.
Proof.
  intros Hperm.
  assert (∀ l1 l2 sz, l1 ≡ₚ l2 →
            (check_image_sizes l1 w).1 = Return (true, Some sz) →
            (check_image_sizes l2 w).1 = Return (true, Some sz)) as Hmove.
  { intros l1 l2 sz Hp H. apply check_image_sizes_sound in H as [Hne Hall].
    apply check_image_sizes_all_same.
    - intros ->. apply Permutation_nil_r in Hp. contradiction.
    - rewrite <- Hp. exact Hall. }
  destruct (check_image_sizes_value paths1 w) as [H1|[sz H1]].
  - destruct (check_image_sizes_value paths2 w) as [H2|[sz H2]].
    + congruence.
    + apply (Hmove paths2 paths1 sz) in H2; [congruence|symmetry; exact Hperm].
  - rewrite H1. symmetry. apply (Hmove paths1 paths2 sz Hperm H1).
Qed.

Lemma check_image_sizes_order_free_witness :
  (check_image_sizes [frame_03; frame_01; frame_02] sample_world).1
  = (check_image_sizes [frame_01; frame_02; frame_03] sample_world).1.
Proof.
  apply (check_image_sizes_order_free sample_world
           [frame_03; frame_01; frame_02] [frame_01; frame_02; frame_03]).
  apply (Permutation_cons_append [frame_01; frame_02] frame_03).
Defined.
